(** * toupee: optimizer schedules, layer injection and weight copying

    A shallow embedding of [toupee/model.py]: the class [OptimizerSchedule]
    (its constructor and the three per-epoch lookups) and the two methods of
    [Model] that edit a Keras model, [inject_layers] and [copy_weights].

    Python values are modelled as follows.
    - [int] is [Z]; the position produced by [enumerate] is a [nat].
    - A [dict] whose iteration order is observable (the nested learning-rate
      map, the [replacement_mappings] of [inject_layers]) is an association
      list in insertion order.  The threshold maps, which the lookups walk in
      sorted key order and the constructor walks once to fill a second map
      with the same keys, are [gmap Z].
    - A call that can raise returns a [result]; a function that can fall off
      its end returns an [option] for Python's [None].
    - Learning rates are only stored and handed back, never computed on, so a
      rational stands for the float.
    - What Keras does is not part of this code.  [tf.keras.optimizers]'
      [deserialize] and [tf.keras.Model.from_config] are parameters of the
      functions that call them: each may raise, and what it builds is up to
      it.  [set_weights] is modelled with the check it makes on the number
      and the shapes of the arrays.  The section of examples fixes one
      runtime to evaluate the code on. *)

From stdpp Require Import base gmap list strings sorting pretty.
From Stdlib Require Import Ascii QArith.

Open Scope Z_scope.

(** ** Exceptions and results *)

Inductive exn : Set :=
  | UnboundLocalError
  | ValueError
  | TypeError
  | KeyError.

Inductive result (A : Type) : Type :=
  | Return (a : A)
  | Raise (e : exn).
Arguments Return {A} a.
Arguments Raise {A} e.

#[global] Instance result_ret : MRet result := λ A a, Return a.
#[global] Instance result_bind : MBind result := λ A B f r,
  match r with
  | Return a => f a
  | Raise e => Raise e
  end.

#[global] Instance exn_eq_dec : EqDecision exn.
Proof. solve_decision. Defined.

Definition scalar : Type := Q.

(** ** Python dictionaries with observable iteration order *)

Module PyDict.
Section pydict.
Context {K V : Type} `{EqDecision K}.

(** [d[k]] *)
Fixpoint getitem (d : list (K * V)) (k : K) : result V :=
  match d with
  | [] => Raise KeyError
  | (k', v) :: d' => if decide (k' = k) then Return v else getitem d' k
  end.

(** [d[k] = v]: an existing key keeps its position, a new key goes last. *)
Fixpoint setitem (d : list (K * V)) (k : K) (v : V) : list (K * V) :=
  match d with
  | [] => [(k, v)]
  | (k', v') :: d' =>
      if decide (k' = k) then (k, v) :: d' else (k', v') :: setitem d' k v
  end.

Definition keys (d : list (K * V)) : list K := d.*1.
End pydict.
End PyDict.

(** [min(xs)] on integers; the empty sequence raises [ValueError]. *)
Definition py_min (xs : list Z) : result Z :=
  match xs with
  | [] => Raise ValueError
  | x :: xs' => Return (foldl Z.min x xs')
  end.

(** [sorted(xs, reverse=True)] *)
Definition sorted_reverse (xs : list Z) : list Z :=
  reverse (merge_sort Z.le xs).

(** ** OptimizerSchedule *)

Module OptimizerSchedule.

(** [conf['config']['learning_rate']]: a float, or a dict from epoch
    threshold to float. *)
Inductive learning_rate : Type :=
  | Scalar (v : scalar)
  | PerEpoch (d : list (Z * scalar)).

(** An optimizer configuration [{'class_name': .., 'config': {..}}].  The
    keys of ['config'] other than ['learning_rate'] are carried along
    untouched. *)
Record opt_params : Type := OptParams {
  class_name : string;
  config_learning_rate : learning_rate;
  config_other : list (string * scalar)
}.

(** An optimizer object of Keras, as far as the schedule can tell one from
    another: its class, the learning rate it holds and its other settings.
    Which optimizer a configuration yields is the runtime's business
    ([deserialize] below); the rate it holds need not be the one that was
    configured. *)
Record optimizer : Type := Optimizer {
  opt_class : string;
  opt_learning_rate : scalar;
  opt_other : list (string * scalar)
}.

(** The [params] argument of the constructor: a bare optimizer
    configuration (it has the key ['class_name']) or a threshold map. *)
Inductive params_arg : Type :=
  | Bare (p : opt_params)
  | Thresholds (m : gmap Z opt_params).

Record t : Type := Schedule {
  params : gmap Z opt_params;
  optimizers : gmap Z optimizer;
  epochs : Z
}.

Definition normalise (p : params_arg) : gmap Z opt_params :=
  match p with
  | Bare p => {[ 0 := p ]}
  | Thresholds m => m
  end.

Section constructor.

(** [tf.keras.optimizers.deserialize] belongs to Keras, not to this
    repository: given a configuration whose learning rate is a scalar it
    builds an optimizer, or it raises (an unknown class or setting, a value it
    does not take).  The constructor is modelled for every such function. *)
Variable deserialize : opt_params → result optimizer.

(** The body of the constructor's loop for one entry: [conf] is the entry
    with its nested map, when there is one, replaced by the value at the least
    key, and [deserialize] turns [conf] into the optimizer. *)
Definition make_optimizer (opt_params : opt_params) : result optimizer :=
  match config_learning_rate opt_params with
  | PerEpoch lr =>
      k ← py_min (PyDict.keys lr);
      v ← PyDict.getitem lr k;
      deserialize (OptParams (class_name opt_params) (Scalar v) (config_other opt_params))
  | Scalar _ => deserialize opt_params
  end.

(** One round of the constructor's loop: [self.optimizers[thresh] = ..]. *)
Definition add_optimizer (thresh : Z) (opt_params : opt_params)
    (acc : result (gmap Z optimizer)) : result (gmap Z optimizer) :=
  optimizers ← acc;
  o ← make_optimizer opt_params;
  mret (<[thresh := o]> optimizers).

Definition __init__ (params : params_arg) (epochs : Z) : result t :=
  let params := normalise params in
  optimizers ← map_fold add_optimizer (mret ∅) params;
  mret (Schedule params optimizers epochs).

End constructor.

(** [for thresh in threshs: if epoch >= thresh: return d[thresh]], falling
    through to [None]. *)
Fixpoint scan {V : Type} (d : gmap Z V) (epoch : Z) (threshs : list Z)
  : result (option V) :=
  match threshs with
  | [] => mret None
  | thresh :: threshs' =>
      if decide (epoch >= thresh)
      then match d !! thresh with
           | Some v => mret (Some v)
           | None => Raise KeyError
           end
      else scan d epoch threshs'
  end.

Definition dict_keys {V : Type} (d : gmap Z V) : list Z := (map_to_list d).*1.

Definition _params_scheduler (self : t) (epoch : Z) : result (option opt_params) :=
  scan (params self) epoch (sorted_reverse (dict_keys (params self))).

Definition _opt_scheduler (self : t) (epoch : Z) : result (option optimizer) :=
  scan (optimizers self) epoch (sorted_reverse (dict_keys (optimizers self))).

Definition __getitem__ (self : t) (epoch : Z) : result (option optimizer) :=
  _opt_scheduler self epoch.

(** The loop over the nested map in [_lr_scheduler]: items are visited in
    the order the dict lists them and every threshold that has been reached
    overwrites [lr]. *)
Definition lr_loop (epoch : Z) (items : list (Z * scalar)) (lr : option scalar)
  : option scalar :=
  foldl (λ lr '(thresh, value), if decide (epoch >= thresh) then Some value else lr)
        lr items.

Definition _lr_scheduler (self : t) (epoch : Z) : result (option scalar) :=
  params ← _params_scheduler self epoch;
  match params with
  | None => Raise TypeError
  | Some params =>
      match config_learning_rate params with
      | PerEpoch d => mret (lr_loop epoch d None)
      | Scalar v => mret (Some v)
      end
  end.

End OptimizerSchedule.

(** ** OptimizerSchedulerCallback

    The callback holds the schedule; the model it is attached to holds the
    optimizer it was last compiled with, which is the state that
    [on_epoch_end] may replace.  [self.model.compile(optimizer, ..)] keeps the
    loss and the metrics and installs [optimizer]. *)

Module OptimizerSchedulerCallback.
Import OptimizerSchedule.

Definition on_epoch_end (optimizer_schedule : OptimizerSchedule.t) (epoch : Z)
    (compiled : option optimizer) : result (option optimizer) :=
  let epoch_keys := dict_keys (params optimizer_schedule) in
  if decide (epoch + 1 ∈ epoch_keys) then
    optimizer ← __getitem__ optimizer_schedule (epoch + 1);
    mret optimizer
  else mret compiled.

End OptimizerSchedulerCallback.

(** ** UUIDs

    [uuid.uuid1()] reads the clock and the host, so the value it returns is
    an input of the model.  A [UUID] wraps a 128-bit integer; [str] prints it
    as 32 lower-case hexadecimal digits grouped 8-4-4-4-12. *)

Module UUID.

Record t : Set := Make { int : N }.

Definition valid (u : t) : Prop := (int u < 2 ^ 128)%N.

Definition hex_char (d : N) : ascii :=
  match d with
  | 0 => "0" | 1 => "1" | 2 => "2" | 3 => "3" | 4 => "4" | 5 => "5"
  | 6 => "6" | 7 => "7" | 8 => "8" | 9 => "9" | 10 => "a" | 11 => "b"
  | 12 => "c" | 13 => "d" | 14 => "e" | _ => "f"
  end%char%N.

(** The [width] low hexadecimal digits of [n], most significant first, in
    front of [acc]. *)
Fixpoint hex_digits (width : nat) (n : N) (acc : string) : string :=
  match width with
  | O => acc
  | S width' =>
      hex_digits width' (n `div` 16)%N (String (hex_char (n `mod` 16)%N) acc)
  end.

(** ['%032x' % n] for a 128-bit [n]. *)
Definition hex032 (n : N) : string := hex_digits 32 n "".

(** [hex[:8]-hex[8:12]-hex[12:16]-hex[16:20]-hex[20:]] for 32 digits. *)
Definition group (hex : string) : string :=
  String.substring 0 8 hex +:+ "-" +:+ String.substring 8 4 hex +:+ "-" +:+
  String.substring 12 4 hex +:+ "-" +:+ String.substring 16 4 hex +:+ "-" +:+
  String.substring 20 12 hex.

Definition str (u : t) : string := group (hex032 (int u)).

End UUID.

(** ** Model *)

Module Model.

(** One entry of [model_config['layers']]. *)
Record layer : Type := Layer {
  name : string;
  class_name : string;
  config_name : string;
  config_other : list (string * string);
  inbound_nodes : list string
}.

(** An array of parameters: its shape and its entries. *)
Record array : Type := Array {
  shape : list nat;
  entries : list scalar
}.

(** A layer object of the runtime: its configuration and its learned
    parameters (a list of arrays). *)
Record keras_layer : Type := KerasLayer {
  layer_config : layer;
  weights : list array
}.

Definition layer_name (l : keras_layer) : string := name (layer_config l).

(** [layer.get_weights()] reads the parameters.  [layer.set_weights(w)]
    overwrites them when [w] has as many arrays as the layer, each of the
    shape of the one it replaces; otherwise Keras raises [ValueError] and the
    layer keeps its parameters. *)
Definition get_weights (l : keras_layer) : list array := weights l.
Definition set_weights (l : keras_layer) (w : list array) : result keras_layer :=
  if decide (shape <$> w = shape <$> weights l)
  then Return (KerasLayer (layer_config l) w)
  else Raise ValueError.

(** Layer objects live in a store and are named by their position in it; a
    Keras model is the list of its layer objects, [self._model.layers]. *)
Abbreviation store := (list keras_layer).
Abbreviation loc := nat.

Record t : Set := Make { _model : list loc }.

Definition layers (h : store) (m : list loc) : list keras_layer :=
  omap (λ l, h !! l) m.

Definition get_config (h : store) (m : list loc) : list layer :=
  layer_config <$> layers h m.

(** Modelled from the spec: [toupee.utils.replace_inbound_layer] is not
    among the sources.  The spec has [inbound] as the ordered sequence of
    the names a node consumes, and has the rewrite replace every entry that
    equals the old name by the new one. *)
Definition replace_inbound_layer
    (inbound_nodes : list string) (replace_old replace_new : string)
  : list string :=
  (λ n, if decide (n = replace_old) then replace_new else n) <$> inbound_nodes.

(** [f"autogenerated-{name}-{inject_uuid}-{i}"] *)
Definition generated_name (name : string) (inject_uuid : UUID.t) (i : nat)
  : string :=
  "autogenerated-" +:+ name +:+ "-" +:+ UUID.str inject_uuid +:+ "-" +:+ pretty i.

(** The local variables of [inject_layers] that the loops update. *)
Record locals : Type := Locals {
  new_layers : list layer;
  inserted : bool;
  last_new_layer : option string
}.

(** The loop over the mapping that renames the inbound nodes of one new
    layer, one mapping after the other. *)
Definition apply_mappings
    (replacement_mappings : list (string * string)) (inbound : list string)
  : list string :=
  foldl (λ inbound '(replace_old, replace_new),
           replace_inbound_layer inbound replace_old replace_new)
        inbound replacement_mappings.

(** The inner loop, over [enumerate(copy.deepcopy(additional_layers))]. *)
Fixpoint add_layers (inject_uuid : UUID.t) (i : nat)
    (additional_layers : list layer)
    (replacement_mappings : list (string * string)) (st : locals) : locals :=
  match additional_layers with
  | [] => st
  | new_layer :: rest =>
      let new_name := generated_name (name new_layer) inject_uuid i in
      let replacement_mappings :=
        PyDict.setitem replacement_mappings (name new_layer) new_name in
      let new_layer :=
        Layer new_name (class_name new_layer) new_name (config_other new_layer)
              (apply_mappings replacement_mappings (inbound_nodes new_layer)) in
      add_layers inject_uuid (S i) rest replacement_mappings
        (Locals (new_layers st ++ [new_layer]) (inserted st) (Some new_name))
  end.

(** The outer loop, over [model_config['layers']].  Reading
    [last_new_layer] before any assignment to it raises. *)
Fixpoint scan_layers (additional_layers : list layer) (predecessor : string)
    (inject_uuid : UUID.t) (model_layers : list layer) (st : locals)
  : result locals :=
  match model_layers with
  | [] => mret st
  | layer :: rest =>
      if negb (inserted st) then
        let st := Locals (new_layers st ++ [layer]) (inserted st) (last_new_layer st) in
        if decide (name layer = predecessor) then
          let st :=
            add_layers inject_uuid 0 additional_layers
                       [("PREDECESSOR"%string, predecessor)] st in
          scan_layers additional_layers predecessor inject_uuid rest
            (Locals (new_layers st) true (last_new_layer st))
        else scan_layers additional_layers predecessor inject_uuid rest st
      else
        match last_new_layer st with
        | None => Raise UnboundLocalError
        | Some last =>
            let layer :=
              Layer (name layer) (class_name layer) (config_name layer)
                    (config_other layer)
                    (replace_inbound_layer (inbound_nodes layer) predecessor last) in
            scan_layers additional_layers predecessor inject_uuid rest
              (Locals (new_layers st ++ [layer]) (inserted st) (last_new_layer st))
        end
  end.

Section methods.

(** [tf.keras.Model.from_config] belongs to Keras, not to this repository:
    from the list of layer configurations it builds the layer objects of a
    new model, or it raises (for instance on an inbound node that names no
    layer).  The objects are added to the store; which ones, and in which
    order the new model lists them, is up to the runtime.  [inject_layers] is
    modelled for every such function, and a statement about a call of it that
    has an outcome says nothing of a call that never comes back.  The entries
    of [model_config] other than ['layers'] go from [get_config] to
    [from_config] as they are; the function stands for the runtime on a
    configuration with those entries. *)
Variable from_config : store → list layer → result (store * list loc).

(** [inject_layers]: the store and the model after the call, and what the
    call returned or raised.  An exception inside the loop or inside
    [from_config] leaves [self._model] as it was; the final
    [return last_new_layer] comes after [self._model] has been rebuilt. *)
Definition inject_layers (h : store) (self : t)
    (additional_layers : list layer) (predecessor : string)
    (inject_uuid : UUID.t) : store * t * result string :=
  let model_config := get_config h (_model self) in
  match scan_layers additional_layers predecessor inject_uuid model_config
                    (Locals [] false None) with
  | Raise e => (h, self, Raise e)
  | Return st =>
      match from_config h (new_layers st) with
      | Raise e => (h, self, Raise e)
      | Return (h', m) =>
          (h', Make m,
           match last_new_layer st with
           | None => Raise UnboundLocalError
           | Some last => Return last
           end)
      end
  end.
End methods.

(** The loop of [copy_weights] over [zip(self.layers, other.layers)]: each
    step reads both layer objects from the store as it is then.  The result
    is the store when the loop ends, and how it ended: an exception of
    [set_weights] ends it at once, with the earlier copies made. *)
Fixpoint copy_loop (early_stop : bool) (pairs : list (loc * loc)) (h : store)
  : store * result () :=
  match pairs with
  | [] => (h, Return ())
  | (this, other) :: rest =>
      match h !! this, h !! other with
      | Some this_layer, Some other_layer =>
          if decide (layer_name this_layer ≠ layer_name other_layer) then
            if early_stop then (h, Return ()) else copy_loop early_stop rest h
          else
            match set_weights this_layer (get_weights other_layer) with
            | Return this_layer' =>
                copy_loop early_stop rest (<[this := this_layer']> h)
            | Raise e => (h, Raise e)
            end
      | _, _ => (h, Return ())
      end
  end.

Definition copy_weights (h : store) (self other_model : t) (early_stop : bool)
  : store * result () :=
  copy_loop early_stop (zip (_model self) (_model other_model)) h.

End Model.

(** ** Derived notions used in the statements *)

(** What the loop of the schedule's constructor has built so far: one
    optimizer for each entry visited, or the exception of an entry that could
    not be turned into one. *)
Definition init_loop_inv
    (deserialize : OptimizerSchedule.opt_params
                   → result OptimizerSchedule.optimizer)
    (r : result (gmap Z OptimizerSchedule.optimizer))
    (m : gmap Z OptimizerSchedule.opt_params)
  : Prop :=
  match r with
  | Return os =>
      ∀ t, ∃ o, os !! t = o ∧
        match m !! t with
        | Some q =>
            ∃ o', OptimizerSchedule.make_optimizer deserialize q = Return o' ∧
                  o = Some o'
        | None => o = None
        end
  | Raise e =>
      ∃ t q, m !! t = Some q ∧
             OptimizerSchedule.make_optimizer deserialize q = Raise e
  end.

(** The layers that [inject_layers] creates when it reaches the anchor: what
    the inner loop appends, starting from its initial mapping. *)
Definition inserted_layers (additional_layers : list Model.layer)
    (predecessor : string) (inject_uuid : UUID.t) : list Model.layer :=
  Model.new_layers
    (Model.add_layers inject_uuid 0 additional_layers
       [("PREDECESSOR"%string, predecessor)] (Model.Locals [] false None)).

(** What the loop over [replacement_mappings] turns one inbound entry into:
    the mappings are tried one after the other, each on the outcome of the
    one before. *)
Definition renamed (replacement_mappings : list (string * string)) (entry : string)
  : string :=
  foldl (λ entry '(replace_old, replace_new),
           if decide (entry = replace_old) then replace_new else entry)
        entry replacement_mappings.

(** What an inbound entry of the template layer at position [i] should
    become: the anchor for the placeholder, the generated name for the name of
    a template layer at a position up to [i], itself otherwise. *)
Definition resolved (additional_layers : list Model.layer) (predecessor : string)
    (inject_uuid : UUID.t) (i : nat) (entry : string) : string :=
  if decide (entry = "PREDECESSOR"%string) then predecessor
  else match list_find (λ b, Model.name b = entry) (take (S i) additional_layers) with
       | Some (j, b) => Model.generated_name (Model.name b) inject_uuid j
       | None => entry
       end.

(** What the outer loop of [inject_layers] turns a layer into once the new
    layers are in: inbound nodes that name the predecessor name [tail]. *)
Definition relinked (predecessor tail : string) (layer : Model.layer) : Model.layer :=
  Model.Layer (Model.name layer) (Model.class_name layer) (Model.config_name layer)
    (Model.config_other layer)
    (Model.replace_inbound_layer (Model.inbound_nodes layer) predecessor tail).

(** What one step of [copy_weights] turns the destination layer into when
    the names agree and [set_weights] accepts the arrays. *)
Definition copied (this_layer other_layer : Model.keras_layer) : Model.keras_layer :=
  Model.KerasLayer (Model.layer_config this_layer) (Model.get_weights other_layer).

(** The parameters of [other_layer] fit [this_layer]: as many arrays, of the
    same shapes. *)
Definition compatible (this_layer other_layer : Model.keras_layer) : Prop :=
  Model.shape <$> Model.weights other_layer = Model.shape <$> Model.weights this_layer.

#[global] Instance compatible_dec (this_layer other_layer : Model.keras_layer) :
  Decision (compatible this_layer other_layer).
Proof. unfold compatible. apply _. Defined.

(** The layers of the destination after [copy_weights] and how the call
    ended, as a function of the layers of both models before it. *)
Fixpoint transplanted (early_stop : bool) (these others : list Model.keras_layer)
  : list Model.keras_layer * result () :=
  match these, others with
  | this_layer :: these', other_layer :: others' =>
      if decide (Model.layer_name this_layer ≠ Model.layer_name other_layer) then
        if early_stop then (these, Return ())
        else
          let '(rest, outcome) := transplanted early_stop these' others' in
          (this_layer :: rest, outcome)
      else
        match Model.set_weights this_layer (Model.get_weights other_layer) with
        | Return this_layer' =>
            let '(rest, outcome) := transplanted early_stop these' others' in
            (this_layer' :: rest, outcome)
        | Raise e => (these, Raise e)
        end
  | _, _ => (these, Return ())
  end.

(** The same when no pair of layers with one name is incompatible: the
    lockstep walk that copies at equal names and skips, or stops, at
    different ones. *)
Fixpoint lockstep (early_stop : bool) (these others : list Model.keras_layer)
  : list Model.keras_layer :=
  match these, others with
  | this_layer :: these', other_layer :: others' =>
      if decide (Model.layer_name this_layer ≠ Model.layer_name other_layer) then
        if early_stop then these
        else this_layer :: lockstep early_stop these' others'
      else copied this_layer other_layer :: lockstep early_stop these' others'
  | _, _ => these
  end.

(** The spec's rule for a threshold map given as a list of items: the value
    at the greatest threshold that the epoch has reached, whatever the order
    of the items. *)
Definition spec_greatest_reached (epoch : Z) (items : list (Z * scalar)) : option scalar :=
  foldl (λ (best : option (Z * scalar)) '(thresh, value),
           if decide (epoch >= thresh) then
             match best with
             | Some (b, _) => if decide (b < thresh) then Some (thresh, value) else best
             | None => Some (thresh, value)
             end
           else best)
        None items ≫= λ best, Some best.2.

(** ** Concrete schedules, graphs and models *)

Module Examples.
Import OptimizerSchedule Model.

Definition sgd (lr : learning_rate) : opt_params := OptParams "SGD" lr [].

Definition cfgA : opt_params := sgd (Scalar 0.1%Q).
Definition cfgB : opt_params := sgd (Scalar 0.05%Q).
Definition cfgC : opt_params := sgd (Scalar 0.001%Q).

(** [{0: cfgA, 5: cfgB, 10: cfgC}] *)
Definition three_steps : gmap Z opt_params :=
  {[ 0 := cfgA; 5 := cfgB; 10 := cfgC ]}.

(** The optimizers of the three configurations, and the schedule that the
    constructor builds from [three_steps]. *)
Definition optA : optimizer := Optimizer "SGD" 0.1%Q [].
Definition optB : optimizer := Optimizer "SGD" 0.05%Q [].
Definition optC : optimizer := Optimizer "SGD" 0.001%Q [].

Definition three_steps_schedule : OptimizerSchedule.t :=
  Schedule three_steps {[ 0 := optA; 5 := optB; 10 := optC ]} 20.

(** [{0: {lr: {0: 0.1, 3: 0.01}}}] *)
Definition nested : gmap Z opt_params :=
  {[ 0 := sgd (PerEpoch [(0, 0.1%Q); (3, 0.01%Q)]) ]}.

(** The same nested map with its keys listed in the other order,
    [{0: {lr: {3: 0.01, 0: 0.1}}}]. *)
Definition nested_unordered : gmap Z opt_params :=
  {[ 0 := sgd (PerEpoch [(3, 0.01%Q); (0, 0.1%Q)]) ]}.

Definition nested_schedule : OptimizerSchedule.t :=
  Schedule nested {[ 0 := Optimizer "SGD" 0.1%Q [] ]} 20.

Definition nested_unordered_schedule : OptimizerSchedule.t :=
  Schedule nested_unordered {[ 0 := Optimizer "SGD" 0.1%Q [] ]} 20.

(** A threshold map that starts at epoch 5, and the schedule that the
    constructor builds from it. *)
Definition late_start : gmap Z opt_params := {[ 5 := cfgB ]}.

Definition late_start_schedule : OptimizerSchedule.t :=
  Schedule late_start {[ 5 := Optimizer "SGD" 0.05%Q [] ]} 20.

Definition dense (n : string) (inbound : list string) : layer :=
  Layer n "Dense" n [] inbound.

(** The chain [A -> B -> C]. *)
Definition chain : list layer :=
  [dense "A" []; dense "B" ["A"%string]; dense "C" ["B"%string]].

Definition no_weights : layer → list array := λ _, [].

Definition chain_store : list keras_layer :=
  (λ c, KerasLayer c (no_weights c)) <$> chain.
Definition chain_model : Model.t := Model.Make [0; 1; 2]%nat.

(** The template [[X, Y]] with [X.inbound = [PREDECESSOR]] and
    [Y.inbound = [X]]. *)
Definition template_xy : list layer :=
  [dense "X" ["PREDECESSOR"%string]; dense "Y" ["X"%string]].

Definition uuid5 : UUID.t := UUID.Make 5.
Definition uuid6 : UUID.t := UUID.Make 6.

Definition x' : string := "autogenerated-X-00000000-0000-0000-0000-000000000005-0".
Definition y' : string := "autogenerated-Y-00000000-0000-0000-0000-000000000005-1".

(** A destination with layers [a, x, c] at locations 0, 1, 2 and a source
    with layers [a, b, c] at locations 3, 4, 5 of one store. *)
Definition trained (n : string) (w : Q) : keras_layer :=
  KerasLayer (dense n []) [Array [1%nat] [w]].

Definition two_models : list keras_layer :=
  [trained "a" 1; trained "x" 2; trained "c" 3;
   trained "a" 10; trained "b" 20; trained "c" 30].
Definition destination : Model.t := Model.Make [0; 1; 2]%nat.
Definition source : Model.t := Model.Make [3; 4; 5]%nat.

(** The same destination and source, but the source's layer [b] holds two
    values where the destination's holds one. *)
Definition wide (n : string) (w : Q) : keras_layer :=
  KerasLayer (dense n []) [Array [2%nat] [w; w]].

Definition mismatched : list keras_layer :=
  [trained "a" 1; trained "b" 2; trained "c" 3;
   trained "a" 10; wide "b" 20; trained "c" 30].

(** A runtime for the examples.  Its [deserialize] takes every configuration
    with a scalar learning rate and builds the optimizer that holds this
    rate; its [from_config] takes every list of layers and builds one layer
    object per entry, in the order of the list, with the parameters that
    [initializer] gives them. *)
Definition accept_scalar (conf : opt_params) : result optimizer :=
  match config_learning_rate conf with
  | Scalar v =>
      Return (Optimizer (OptimizerSchedule.class_name conf) v
                        (OptimizerSchedule.config_other conf))
  | PerEpoch _ => Raise TypeError
  end.

Definition as_listed (initializer : layer → list array)
    (h : list keras_layer) (model_config : list layer)
  : result (list keras_layer * list nat) :=
  Return (h ++ ((λ c, KerasLayer c (initializer c)) <$> model_config),
          seq (length h) (length model_config)).

End Examples.

(** * Properties of the schedule *)

Section schedule_facts.
Import OptimizerSchedule.
Variable deserialize : opt_params → result optimizer.

Lemma elem_of_sorted_reverse (x : Z) (xs : list Z) :
  x ∈ sorted_reverse xs ↔ x ∈ xs.
Proof.
  unfold sorted_reverse. rewrite elem_of_reverse.
  by rewrite merge_sort_Permutation.
Qed.

Lemma sorted_reverse_descending (xs : list Z) :
  StronglySorted (flip Z.le) (sorted_reverse xs).
Proof.
  apply Sorted_StronglySorted.
  - intros x y z; unfold flip; lia.
  - apply Sorted_reverse, Sorted_merge_sort. intros x y; lia.
Qed.

Lemma elem_of_dict_keys {V : Type} (d : gmap Z V) (t : Z) :
  t ∈ dict_keys d ↔ is_Some (d !! t).
Proof.
  unfold dict_keys. rewrite list_elem_of_fmap. split.
  - intros [[k v] [-> H%elem_of_map_to_list]]. eauto.
  - intros [v H]. exists (t, v). split; [done|]. by apply elem_of_map_to_list.
Qed.

(** On a descending list the loop stops at the greatest threshold that the
    epoch has reached. *)
Lemma scan_greatest {V : Type} (d : gmap Z V) (epoch : Z) (threshs : list Z)
    (thresh : Z) (v : V) :
  StronglySorted (flip Z.le) threshs →
  thresh ∈ threshs →
  thresh ≤ epoch →
  (∀ t, t ∈ threshs → t ≤ epoch → t ≤ thresh) →
  d !! thresh = Some v →
  scan d epoch threshs = Return (Some v).
Proof.
  intros Hsorted Hin Hle Hmax Hv.
  induction Hsorted as [|h threshs Hsorted IH Hall]; [by apply elem_of_nil in Hin|].
  simpl. case_decide as Hh.
  - assert (h = thresh) as ->.
    { apply Z.le_antisymm.
      - apply Hmax; [left | lia].
      - apply elem_of_cons in Hin as [->|Hin]; [lia|].
        rewrite Forall_forall in Hall. apply (Hall _ Hin). }
    by rewrite Hv.
  - apply elem_of_cons in Hin as [->|Hin]; [lia|].
    apply IH; [done|]. intros t Ht. apply Hmax. by right.
Qed.

(** The loop falls through when no threshold has been reached. *)
Lemma scan_none {V : Type} (d : gmap Z V) (epoch : Z) (threshs : list Z) :
  (∀ t, t ∈ threshs → epoch < t) →
  scan d epoch threshs = Return None.
Proof.
  induction threshs as [|h threshs IH]; intros Hall; [done|].
  simpl. case_decide as Hh.
  - specialize (Hall h ltac:(left)). lia.
  - apply IH. intros t Ht. apply Hall. by right.
Qed.

Lemma init_loop (m : gmap Z opt_params) :
  init_loop_inv deserialize (map_fold (add_optimizer deserialize) (mret ∅) m) m.
Proof.
  apply (map_fold_weak_ind (init_loop_inv deserialize)).
  - intros t. exists None. by rewrite !lookup_empty.
  - intros i q m' r Hi IH. destruct r as [os|e]; simpl.
    + destruct (make_optimizer deserialize q) as [o|e] eqn:Ho; simpl.
      * intros t. destruct (decide (i = t)) as [->|Hne].
        -- exists (Some o). rewrite !lookup_insert_eq. eauto.
        -- rewrite !lookup_insert_ne by done. apply IH.
      * exists i, q. by rewrite lookup_insert_eq.
    + destruct IH as (t & q' & Ht & Hq). exists t, q'. split; [|done].
      rewrite lookup_insert_ne; [done|]. intros ->. congruence.
Qed.

Lemma init_Return (p : params_arg) (epochs : Z) (self : t) :
  __init__ deserialize p epochs = Return self →
  params self = normalise p ∧
  (∀ t q, normalise p !! t = Some q →
     ∃ o, make_optimizer deserialize q = Return o ∧ optimizers self !! t = Some o) ∧
  (∀ t, normalise p !! t = None → optimizers self !! t = None).
Proof.
  unfold __init__. intros H. pose proof (init_loop (normalise p)) as Hloop.
  destruct (map_fold (add_optimizer deserialize) (mret ∅) (normalise p))
    as [os|e]; [|done].
  simpl in H. injection H as <-. simpl. split_and!; [done|..].
  - intros t q Hq. destruct (Hloop t) as (o & Ho & Hm). rewrite Hq in Hm.
    destruct Hm as (o' & Ho' & ->). eauto.
  - intros t Hq. destruct (Hloop t) as (o & Ho & Hm). rewrite Hq in Hm.
    by subst.
Qed.

Lemma init_total (p : params_arg) (epochs : Z) :
  (∀ t q, normalise p !! t = Some q → ∃ o, make_optimizer deserialize q = Return o) →
  ∃ self, __init__ deserialize p epochs = Return self.
Proof.
  unfold __init__. intros Hok. pose proof (init_loop (normalise p)) as Hloop.
  destruct (map_fold (add_optimizer deserialize) (mret ∅) (normalise p))
    as [os|e]; [by eexists|].
  destruct Hloop as (t & q & Ht & Hq). destruct (Hok _ _ Ht) as [o Ho].
  congruence.
Qed.

Lemma init_optimizers_dom (p : params_arg) (epochs : Z) (self : t) (thresh : Z) :
  __init__ deserialize p epochs = Return self →
  is_Some (optimizers self !! thresh) ↔ is_Some (normalise p !! thresh).
Proof.
  intros (_ & Hsome & Hnone)%init_Return.
  destruct (normalise p !! thresh) as [q|] eqn:Hq.
  - destruct (Hsome _ _ Hq) as (o & _ & ->). split; eauto.
  - rewrite (Hnone _ Hq). split; intros [? ?]; done.
Qed.

(** The lookup that both [_params_scheduler] and [_opt_scheduler] perform,
    on any threshold map. *)
Lemma scheduler_greatest {V : Type} (d : gmap Z V) (epoch thresh : Z) (v : V) :
  d !! thresh = Some v →
  thresh ≤ epoch →
  (∀ t, is_Some (d !! t) → t ≤ epoch → t ≤ thresh) →
  scan d epoch (sorted_reverse (dict_keys d)) = Return (Some v).
Proof.
  intros Hv Hle Hmax. apply scan_greatest with thresh; try done.
  - apply sorted_reverse_descending.
  - apply elem_of_sorted_reverse, elem_of_dict_keys. eauto.
  - intros t Ht. apply Hmax. by apply elem_of_dict_keys, elem_of_sorted_reverse.
Qed.

Lemma scheduler_none {V : Type} (d : gmap Z V) (epoch : Z) :
  (∀ t, is_Some (d !! t) → epoch < t) →
  scan d epoch (sorted_reverse (dict_keys d)) = Return None.
Proof.
  intros Hall. apply scan_none. intros t Ht. apply Hall.
  by apply elem_of_dict_keys, elem_of_sorted_reverse.
Qed.

End schedule_facts.

Section schedule_claims.
Import OptimizerSchedule Examples.

(** Subscripting a constructed schedule: the optimizer built from the entry
    at the greatest threshold that the epoch has reached. *)
Lemma getitem_greatest
    (deserialize : opt_params → result optimizer)
    (p : params_arg) (epochs : Z) (self : t)
    (epoch thresh : Z) (entry : opt_params) :
  __init__ deserialize p epochs = Return self →
  normalise p !! thresh = Some entry →
  thresh ≤ epoch →
  (∀ t, is_Some (normalise p !! t) → t ≤ epoch → t ≤ thresh) →
  ∃ o, make_optimizer deserialize entry = Return o ∧
       __getitem__ self epoch = Return (Some o).
Proof.
  intros Hinit Hentry Hle Hmax.
  destruct (init_Return deserialize _ _ _ Hinit) as (_ & Hsome & _).
  destruct (Hsome _ _ Hentry) as (o & Ho & Hlook).
  exists o. split; [done|].
  unfold __getitem__, _opt_scheduler.
  apply scheduler_greatest with thresh; try done.
  intros t Ht. apply Hmax. by apply (init_optimizers_dom deserialize p epochs self).
Qed.

Lemma getitem_none
    (deserialize : opt_params → result optimizer)
    (p : params_arg) (epochs : Z) (self : t) (epoch : Z) :
  __init__ deserialize p epochs = Return self →
  (∀ t, is_Some (normalise p !! t) → epoch < t) →
  __getitem__ self epoch = Return None.
Proof.
  intros Hinit Hall. unfold __getitem__, _opt_scheduler.
  apply scheduler_none. intros t Ht. apply Hall.
  by apply (init_optimizers_dom deserialize p epochs self).
Qed.

Lemma three_steps_keys (t : Z) :
  is_Some (three_steps !! t) → t = 0 ∨ t = 5 ∨ t = 10.
Proof.
  unfold three_steps. intros [q Hq].
  destruct (decide (t = 0)); [auto|].
  destruct (decide (t = 5)); [auto|].
  destruct (decide (t = 10)); [auto|].
  rewrite !lookup_insert_ne, lookup_singleton_ne in Hq by done. done.
Qed.

(** C2.  The subscript lookup of a constructed schedule returns the optimizer
    of the entry whose threshold is the greatest one not above the epoch,
    whenever some entry has such a threshold.  For the thresholds
    [{0: cfgA, 5: cfgB, 10: cfgC}], epochs 0 to 4 select the optimizer of
    cfgA, epochs 5 to 9 that of cfgB, and epochs from 10 on that of cfgC. *)
Theorem getitem_greatest_threshold :
  (∀ (deserialize : opt_params → result optimizer)
     (p : params_arg) (epochs : Z) (self : t) (epoch thresh : Z)
     (entry : opt_params),
     __init__ deserialize p epochs = Return self →
     normalise p !! thresh = Some entry →
     thresh ≤ epoch →
     (∀ t, is_Some (normalise p !! t) → t ≤ epoch → t ≤ thresh) →
     ∃ o, make_optimizer deserialize entry = Return o ∧
          __getitem__ self epoch = Return (Some o))
  ∧
  (__init__ accept_scalar (Thresholds three_steps) 20 = Return three_steps_schedule ∧
   make_optimizer accept_scalar cfgA = Return optA ∧
   make_optimizer accept_scalar cfgB = Return optB ∧
   make_optimizer accept_scalar cfgC = Return optC ∧
   ∀ epoch,
     (0 ≤ epoch < 5 → __getitem__ three_steps_schedule epoch = Return (Some optA)) ∧
     (5 ≤ epoch < 10 → __getitem__ three_steps_schedule epoch = Return (Some optB)) ∧
     (10 ≤ epoch → __getitem__ three_steps_schedule epoch = Return (Some optC))).
Proof.
  split; [apply getitem_greatest|].
  assert (__init__ accept_scalar (Thresholds three_steps) 20
          = Return three_steps_schedule)
    as Hinit by (vm_compute; reflexivity).
  split_and!; [done|reflexivity..|].
  assert (∀ epoch thresh entry o,
    three_steps !! thresh = Some entry →
    make_optimizer accept_scalar entry = Return o →
    thresh ≤ epoch →
    (∀ t, t = 0 ∨ t = 5 ∨ t = 10 → t ≤ epoch → t ≤ thresh) →
    __getitem__ three_steps_schedule epoch = Return (Some o)) as Hpick.
  { intros epoch thresh entry o Hentry Ho Hle Hmax.
    destruct (getitem_greatest accept_scalar (Thresholds three_steps) 20
                three_steps_schedule epoch thresh entry) as (o' & Ho' & ->);
      try done.
    - intros t Ht. apply Hmax. by apply three_steps_keys.
    - congruence. }
  intros epoch. split_and!; intros Hrange.
  - apply (Hpick epoch 0 cfgA); [done..|lia|lia].
  - apply (Hpick epoch 5 cfgB); [done..|lia|lia].
  - apply (Hpick epoch 10 cfgC); [done..|lia|lia].
Qed.

Lemma getitem_greatest_threshold_witness :
  __getitem__ three_steps_schedule 7 = Return (Some optB).
Proof.
  destruct (proj1 getitem_greatest_threshold accept_scalar (Thresholds three_steps) 20
              three_steps_schedule 7 5 cfgB) as (o & Ho & Hget).
  - vm_compute. reflexivity.
  - reflexivity.
  - lia.
  - intros t Ht%three_steps_keys. lia.
  - injection Ho as <-. exact Hget.
Defined.

(** C10.  When the smallest declared threshold [t] is above 0, subscripting
    the schedule with an epoch below [t] returns [None]: no error is raised
    and no declared entry is used. *)
Theorem getitem_before_first_threshold
    (deserialize : opt_params → result optimizer)
    (p : params_arg) (epochs : Z) (self : t)
    (t epoch : Z) :
  __init__ deserialize p epochs = Return self →
  is_Some (normalise p !! t) →
  (∀ t', is_Some (normalise p !! t') → t ≤ t') →
  0 < t →
  epoch < t →
  __getitem__ self epoch = Return None.
Proof.
  intros Hinit _ Hleast _ Hlt. apply (getitem_none deserialize p epochs); [done|].
  intros t' Ht'. specialize (Hleast t' Ht'). lia.
Qed.

Lemma late_start_keys (t : Z) : is_Some (late_start !! t) → t = 5.
Proof.
  unfold late_start. intros [q Hq]. destruct (decide (t = 5)); [done|].
  by rewrite lookup_singleton_ne in Hq.
Qed.

Lemma getitem_before_first_threshold_witness :
  __getitem__ late_start_schedule 2 = Return None.
Proof.
  apply (getitem_before_first_threshold accept_scalar (Thresholds late_start) 20
           late_start_schedule 5 2).
  - vm_compute. reflexivity.
  - by eexists.
  - intros t' ->%late_start_keys. lia.
  - lia.
  - lia.
Defined.

Lemma foldl_min_elem (x : Z) (xs : list Z) : foldl Z.min x xs ∈ x :: xs.
Proof.
  revert x. induction xs as [|y xs IH]; intros x; simpl; [left|].
  pose proof (IH (Z.min x y)) as H. apply elem_of_cons in H as [Heq|Hin].
  - rewrite Heq. destruct (Z.min_spec x y) as [[_ ->]|[_ ->]]; [left|right; left].
  - by do 2 right.
Qed.

Lemma getitem_elem {V : Type} (d : list (Z * V)) (k : Z) :
  k ∈ PyDict.keys d → ∃ v, PyDict.getitem d k = Return v.
Proof.
  unfold PyDict.keys. induction d as [|[k' v] d IH]; simpl.
  - by intros ?%elem_of_nil.
  - intros Hin. case_decide; [by eexists|].
    apply elem_of_cons in Hin as [->|Hin]; [done|]. by apply IH.
Qed.

(** The configuration that the constructor hands to [deserialize] for an
    entry: the entry itself when its learning rate is a scalar, and the entry
    with the value at the least key of the nested map otherwise, which needs
    the nested map to have a key. *)
Lemma make_optimizer_conf
    (deserialize : opt_params → result optimizer)
    (q : opt_params) :
  match config_learning_rate q with
  | Scalar _ => make_optimizer deserialize q = deserialize q
  | PerEpoch [] => make_optimizer deserialize q = Raise ValueError
  | PerEpoch ((k, v) :: d) =>
      ∃ v', PyDict.getitem ((k, v) :: d) (foldl Z.min k d.*1) = Return v' ∧
            make_optimizer deserialize q
            = deserialize (OptParams (class_name q) (Scalar v') (config_other q))
  end.
Proof.
  unfold make_optimizer. destruct (config_learning_rate q) as [v|[|[k v] d]];
    [done..|].
  destruct (getitem_elem ((k, v) :: d) (foldl Z.min k d.*1)) as [v' Hv'].
  { unfold PyDict.keys. simpl. apply (foldl_min_elem k (d.*1)). }
  exists v'. split; [done|]. unfold PyDict.keys. simpl in *.
  change (list_fmap _ _ fst d) with (d.*1). by rewrite Hv'.
Qed.

(** C8, as the code has it.  A threshold map without an entry for threshold
    0 is not turned down by the constructor: whenever an optimizer can be
    built for each of its entries the construction succeeds and keeps the map
    as given, and the gap shows at lookup only, where an epoch below every
    threshold gets no optimizer. *)
Theorem init_accepts_missing_threshold_0
    (deserialize : opt_params → result optimizer)
    (m : gmap Z opt_params) (epochs : Z) :
  m !! 0 = None →
  (∀ t q, m !! t = Some q → ∃ o, make_optimizer deserialize q = Return o) →
  ∃ self,
    __init__ deserialize (Thresholds m) epochs = Return self ∧
    params self = m ∧
    (∀ epoch, (∀ t, is_Some (m !! t) → epoch < t) →
              __getitem__ self epoch = Return None).
Proof.
  intros _ Hok.
  destruct (init_total deserialize (Thresholds m) epochs) as [self Hself]; [done|].
  exists self. split_and!; [done|..].
  - by destruct (init_Return _ _ _ _ Hself) as (-> & _).
  - intros epoch. by apply (getitem_none deserialize (Thresholds m) epochs).
Qed.

Lemma init_accepts_missing_threshold_0_witness :
  ∃ self,
    __init__ accept_scalar (Thresholds late_start) 20 = Return self ∧
    params self = late_start ∧
    (∀ epoch, (∀ t, is_Some (late_start !! t) → epoch < t) →
              __getitem__ self epoch = Return None).
Proof.
  apply (init_accepts_missing_threshold_0 accept_scalar late_start 20).
  - reflexivity.
  - intros t q Hq. assert (t = 5) as -> by (apply late_start_keys; eauto).
    vm_compute in Hq. injection Hq as <-. by eexists.
Defined.

(** C8 fails on the code: a threshold map that starts at epoch 5 is accepted
    by the constructor, and epoch 2 then gets no optimizer. *)
Lemma init_without_threshold_0_returns :
  late_start !! 0 = None ∧
  __init__ accept_scalar (Thresholds late_start) 20 = Return late_start_schedule ∧
  __getitem__ late_start_schedule 2 = Return None.
Proof. split_and!; vm_compute; reflexivity. Qed.

(** C3.  With the nested map [{3: 0.01, 0: 0.1}] the learning rate at epoch 5
    is 0.1, the value listed last among the thresholds reached; the greatest
    threshold reached is 3, whose value is 0.01. *)
Theorem lr_scheduler_follows_listing_order :
  let d := [(3, 0.01%Q); (0, 0.1%Q)] in
  __init__ accept_scalar (Thresholds nested_unordered) 20
  = Return nested_unordered_schedule ∧
  _params_scheduler nested_unordered_schedule 5 = Return (Some (sgd (PerEpoch d))) ∧
  PyDict.getitem d 3 = Return 0.01%Q ∧
  (∀ t, t ∈ PyDict.keys d → t ≤ 5 → t ≤ 3) ∧
  spec_greatest_reached 5 d = Some 0.01%Q ∧
  _lr_scheduler nested_unordered_schedule 5 = Return (Some 0.1%Q).
Proof.
  split_and!; try (vm_compute; reflexivity).
  intros t Ht. simpl in Ht.
  repeat (apply elem_of_cons in Ht as [->|Ht]; [lia|]).
  by apply elem_of_nil in Ht.
Qed.

(** When the nested map lists its keys in ascending order, the loop ends on
    the greatest threshold reached. *)
Lemma lr_loop_ascending_from (epoch : Z) (items : list (Z * scalar)) :
  ∀ (b : Z) (v : scalar),
    StronglySorted Z.lt (b :: items.*1) →
    lr_loop epoch items (Some v)
    = foldl (λ (best : option (Z * scalar)) '(thresh, value),
               if decide (epoch >= thresh) then
                 match best with
                 | Some (b, _) =>
                     if decide (b < thresh) then Some (thresh, value) else best
                 | None => Some (thresh, value)
                 end
               else best)
            (Some (b, v)) items ≫= λ best, Some best.2.
Proof.
  unfold lr_loop. induction items as [|[t x] items IH]; intros b v Hsorted; [done|].
  simpl in *. apply StronglySorted_inv in Hsorted as [Hsorted Hall].
  apply Forall_cons in Hall as [Hbt Hall].
  case_decide.
  - rewrite decide_True by done. by apply IH.
  - apply IH. apply StronglySorted_inv in Hsorted as [Hsorted _].
    by constructor.
Qed.

Lemma lr_loop_ascending (epoch : Z) (items : list (Z * scalar)) :
  StronglySorted Z.lt items.*1 →
  lr_loop epoch items None = spec_greatest_reached epoch items.
Proof.
  unfold spec_greatest_reached, lr_loop.
  induction items as [|[t x] items IH]; intros Hsorted; [done|].
  simpl in *. case_decide.
  - by apply (lr_loop_ascending_from epoch items t x).
  - apply IH. by apply StronglySorted_inv in Hsorted as [Hsorted _].
Qed.

(** The spec's example, whose nested map lists 0 before 3. *)
Lemma lr_scheduler_nested_example :
  __init__ accept_scalar (Thresholds nested) 20 = Return nested_schedule ∧
  _lr_scheduler nested_schedule 2 = Return (Some 0.1%Q) ∧
  _lr_scheduler nested_schedule 3 = Return (Some 0.01%Q) ∧
  _lr_scheduler nested_schedule 100 = Return (Some 0.01%Q).
Proof. split_and!; vm_compute; reflexivity. Qed.

End schedule_claims.

(** * Properties of layer injection *)

Section inject_facts.
Import Model.

Lemma add_layers_new_layers (u : UUID.t) (adds : list layer) :
  ∀ (i : nat) (maps : list (string * string)) (st : locals),
    new_layers (add_layers u i adds maps st)
    = new_layers st ++ new_layers (add_layers u i adds maps (Locals [] false None)).
Proof.
  induction adds as [|a adds IH]; intros i maps st; simpl.
  - by rewrite app_nil_r.
  - rewrite (IH _ _ (Locals (_ ++ _) _ _)), (IH _ _ (Locals [_] _ _)). simpl.
    by rewrite <-app_assoc.
Qed.

Lemma add_layers_inserted (u : UUID.t) (adds : list layer) :
  ∀ (i : nat) (maps : list (string * string)) (st : locals),
    inserted (add_layers u i adds maps st) = inserted st.
Proof.
  induction adds as [|a adds IH]; intros i maps st; simpl; [done|].
  by rewrite IH.
Qed.

Lemma add_layers_names (u : UUID.t) (adds : list layer) :
  ∀ (i : nat) (maps : list (string * string)),
    name <$> new_layers (add_layers u i adds maps (Locals [] false None))
    = imap (λ k a, generated_name (name a) u (i + k)) adds.
Proof.
  induction adds as [|a adds IH]; intros i maps; simpl; [done|].
  rewrite add_layers_new_layers. simpl. rewrite IH. f_equal.
  - by rewrite Nat.add_0_r.
  - apply imap_ext. intros k b _. simpl. f_equal. lia.
Qed.

(** [last_new_layer] after the inner loop: the name of the last layer it
    appended, or what it was when nothing was appended. *)
Lemma add_layers_last (u : UUID.t) (adds : list layer) :
  ∀ (i : nat) (maps : list (string * string)) (st : locals),
    last_new_layer (add_layers u i adds maps st)
    = match last (name <$> new_layers
                    (add_layers u i adds maps (Locals [] false None))) with
      | Some n => Some n
      | None => last_new_layer st
      end.
Proof.
  induction adds as [|a adds IH]; intros i maps st; simpl; [done|].
  rewrite (IH _ _ (Locals (_ ++ _) _ _)).
  rewrite (add_layers_new_layers _ _ _ _ (Locals [_] _ _)).
  simpl. rewrite last_cons. by destruct (last _).
Qed.

Lemma inserted_layers_names (adds : list layer) (pred : string) (u : UUID.t) :
  name <$> inserted_layers adds pred u
  = imap (λ k a, generated_name (name a) u k) adds.
Proof. unfold inserted_layers. by rewrite add_layers_names. Qed.

Lemma inserted_layers_last (adds : list layer) (pred : string) (u : UUID.t) :
  adds ≠ [] → is_Some (last (name <$> inserted_layers adds pred u)).
Proof.
  intros Hne. rewrite inserted_layers_names.
  destruct adds as [|a adds] using rev_ind; [done|].
  rewrite imap_app. simpl. rewrite last_snoc. by eexists.
Qed.

Lemma inserted_layers_nil (pred : string) (u : UUID.t) :
  inserted_layers [] pred u = [].
Proof. done. Qed.

(** The outer loop on layers in front of the anchor. *)
Lemma scan_layers_before (adds : list layer) (pred : string) (u : UUID.t)
    (ls : list layer) :
  ∀ st, inserted st = false →
    pred ∉ name <$> ls →
    scan_layers adds pred u ls st
    = Return (Locals (new_layers st ++ ls) false (last_new_layer st)).
Proof.
  induction ls as [|l ls IH]; intros st Hins Hnot; simpl.
  - rewrite app_nil_r. destruct st; simpl in *; by subst.
  - rewrite Hins. simpl. apply not_elem_of_cons in Hnot as [Hl Hls].
    rewrite decide_False by done. rewrite IH by done. simpl.
    by rewrite <-app_assoc.
Qed.

(** The outer loop on layers behind the new ones. *)
Lemma scan_layers_after (adds : list layer) (pred : string) (u : UUID.t)
    (tail : string) (ls : list layer) :
  ∀ st, inserted st = true →
    last_new_layer st = Some tail →
    scan_layers adds pred u ls st
    = Return (Locals (new_layers st ++ (relinked pred tail <$> ls)) true (Some tail)).
Proof.
  induction ls as [|l ls IH]; intros st Hins Hlast; simpl.
  - rewrite app_nil_r. destruct st; simpl in *; by subst.
  - rewrite Hins, Hlast. simpl. rewrite IH by done. simpl.
    by rewrite <-app_assoc.
Qed.

(** With no new layer appended, the first layer behind the anchor reads a
    variable that was never assigned. *)
Lemma scan_layers_unbound (adds : list layer) (pred : string) (u : UUID.t)
    (l : layer) (ls : list layer) (st : locals) :
  inserted st = true →
  last_new_layer st = None →
  scan_layers adds pred u (l :: ls) st = Raise UnboundLocalError.
Proof. intros Hins Hlast. simpl. by rewrite Hins, Hlast. Qed.

(** The outer loop up to and including the anchor. *)
Lemma scan_layers_anchor (adds : list layer) (pred : string) (u : UUID.t)
    (before : list layer) (anchor : layer) (after : list layer) :
  ∀ st, inserted st = false →
    pred ∉ name <$> before →
    name anchor = pred →
    scan_layers adds pred u (before ++ anchor :: after) st
    = scan_layers adds pred u after
        (Locals (new_layers st ++ before ++ anchor :: inserted_layers adds pred u)
           true
           (match last (name <$> inserted_layers adds pred u) with
            | Some n => Some n
            | None => last_new_layer st
            end)).
Proof.
  induction before as [|l before IH]; intros st Hins Hnot Hanchor; simpl.
  - rewrite Hins. simpl. rewrite decide_True by done.
    rewrite add_layers_new_layers, add_layers_last. simpl.
    unfold inserted_layers. by rewrite <-app_assoc.
  - rewrite Hins. simpl. apply not_elem_of_cons in Hnot as [Hl Hls].
    rewrite decide_False by done. rewrite IH by done. simpl.
    by rewrite <-app_assoc.
Qed.

Lemma first_named (pred : string) (ls : list layer) :
  pred ∈ name <$> ls →
  ∃ before anchor after,
    ls = before ++ anchor :: after ∧ name anchor = pred ∧ pred ∉ name <$> before.
Proof.
  induction ls as [|l ls IH]; simpl; [by intros ?%elem_of_nil|].
  intros Hin. destruct (decide (name l = pred)) as [Heq|Hne].
  - exists [], l, ls. split_and!; [done..|]. apply not_elem_of_nil.
  - apply elem_of_cons in Hin as [?|Hin]; [done|].
    destruct (IH Hin) as (before & anchor & after & -> & Hanchor & Hnot).
    exists (l :: before), anchor, after. split_and!; [done..|].
    simpl. apply not_elem_of_cons. split; [congruence|done].
Qed.

(** The whole scan when the anchor is there and a layer is added. *)
Lemma scan_layers_found (adds : list layer) (pred : string) (u : UUID.t)
    (before : list layer) (anchor : layer) (after : list layer) (tail : string) :
  name anchor = pred →
  pred ∉ name <$> before →
  last (name <$> inserted_layers adds pred u) = Some tail →
  scan_layers adds pred u (before ++ anchor :: after) (Locals [] false None)
  = Return (Locals (before ++ anchor :: inserted_layers adds pred u
                      ++ (relinked pred tail <$> after))
              true (Some tail)).
Proof.
  intros Hanchor Hnot Htail. rewrite scan_layers_anchor by done. rewrite Htail.
  rewrite (scan_layers_after _ _ _ tail) by done. simpl.
  by rewrite <-app_assoc.
Qed.

End inject_facts.

Section inject_claims.
Import Model Examples.
Variable from_config :
  list keras_layer → list layer → result (list keras_layer * list nat).

(** The call when the anchor is found and at least one layer is added: the
    runtime is handed the layers up to the anchor, the new layers, and the
    layers behind the anchor relinked, and the outcome of the call is the
    runtime's. *)
Lemma inject_layers_found (h : list keras_layer) (self : Model.t)
    (adds : list layer) (pred : string) (u : UUID.t)
    (before : list layer) (anchor : layer) (after : list layer) (tail : string) :
  get_config h (_model self) = before ++ anchor :: after →
  name anchor = pred →
  pred ∉ name <$> before →
  last (name <$> inserted_layers adds pred u) = Some tail →
  inject_layers from_config h self adds pred u
  = match from_config h (before ++ anchor :: inserted_layers adds pred u
                           ++ (relinked pred tail <$> after)) with
    | Return (h', m) => (h', Make m, Return tail)
    | Raise e => (h, self, Raise e)
    end.
Proof.
  intros Hcfg Hanchor Hnot Htail. unfold inject_layers.
  rewrite Hcfg, (scan_layers_found _ _ _ _ _ _ tail) by done. simpl.
  by destruct (from_config h _) as [[h' m]|e].
Qed.

(** The call when the anchor is found and no layer is added: it raises, in
    the loop when a layer follows the anchor and at its [return] otherwise. *)
Lemma inject_layers_nothing_to_add (h : list keras_layer) (self : Model.t)
    (pred : string) (u : UUID.t) :
  pred ∈ name <$> get_config h (_model self) →
  inject_layers from_config h self [] pred u = (h, self, Raise UnboundLocalError) ∨
  inject_layers from_config h self [] pred u
  = match from_config h (get_config h (_model self)) with
    | Return (h', m) => (h', Make m, Raise UnboundLocalError)
    | Raise e => (h, self, Raise e)
    end.
Proof.
  intros (before & anchor & after & Hcfg & Hanchor & Hnot)%first_named.
  unfold inject_layers. rewrite Hcfg, scan_layers_anchor by done.
  rewrite inserted_layers_nil. simpl. destruct after as [|l after].
  - right. simpl. by destruct (from_config h _) as [[h' m]|e].
  - left. by rewrite scan_layers_unbound.
Qed.

(** The call when no layer has the anchor's name: the runtime is handed the
    layers of the model as they are, and the call raises at its [return] once
    the runtime has rebuilt the model. *)
Lemma inject_layers_not_found (h : list keras_layer) (self : Model.t)
    (adds : list layer) (pred : string) (u : UUID.t) :
  pred ∉ name <$> get_config h (_model self) →
  inject_layers from_config h self adds pred u
  = match from_config h (get_config h (_model self)) with
    | Return (h', m) => (h', Make m, Raise UnboundLocalError)
    | Raise e => (h, self, Raise e)
    end.
Proof.
  intros Hnot. unfold inject_layers. rewrite scan_layers_before by done.
  simpl. by destruct (from_config h _) as [[h' m]|e].
Qed.

Lemma relinked_Forall2 (pred tail : string) (ls : list layer) :
  Forall2 (λ old new,
      name new = name old ∧ class_name new = class_name old ∧
      config_name new = config_name old ∧ config_other new = config_other old ∧
      inbound_nodes new
      = ((λ n, if decide (n = pred) then tail else n) <$> inbound_nodes old))
    ls (relinked pred tail <$> ls).
Proof. induction ls as [|l ls IH]; constructor; [by split_and!|done]. Qed.

End inject_claims.

(** The runtime of the examples builds a model that has the configuration
    it was built from. *)
Lemma get_config_as_listed (initializer : Model.layer → list Model.array)
    (cfg : list Model.layer) :
  ∀ h : list Model.keras_layer,
    Model.get_config (h ++ ((λ c, Model.KerasLayer c (initializer c)) <$> cfg))
                     (seq (length h) (length cfg))
    = cfg.
Proof.
  unfold Model.get_config, Model.layers.
  induction cfg as [|c cfg IH]; intros h; simpl; [done|].
  rewrite lookup_app_r by lia. rewrite Nat.sub_diag. simpl. f_equal.
  specialize (IH (h ++ [Model.KerasLayer c (initializer c)])).
  rewrite length_app, <-app_assoc in IH. simpl in IH.
  by rewrite Nat.add_1_r in IH.
Qed.

Section inject_theorems.
Import Model Examples.

(** C1.  When the anchor exists and at least one layer is injected, the
    loop of [inject_layers] hands the runtime this list of layers: the layers
    up to the first one named like the anchor, unchanged; the new layers;
    and every original layer behind the anchor, with each inbound entry that
    equalled the anchor's name replaced by the generated name of the last
    inserted layer and with its other inbound entries and its other fields as
    they were.  The call completes exactly when the runtime builds a model
    from this list, and it returns that generated name; so after a completed
    injection the model is the one built from this list.  Injecting [[X, Y]]
    behind [A] into the chain [A -> B -> C] gives [A -> X' -> Y' -> B -> C]
    with [B.inbound = [Y']]. *)
Theorem inject_relinks_downstream :
  (∀ (from_config : list keras_layer → list layer
                    → result (list keras_layer * list nat))
     (h : list keras_layer) (self : Model.t) (additional : list layer)
     (predecessor : string) (uuid : UUID.t),
     predecessor ∈ name <$> get_config h (_model self) →
     additional ≠ [] →
     ∃ before anchor after after' tail,
       get_config h (_model self) = before ++ anchor :: after ∧
       name anchor = predecessor ∧
       (predecessor ∉ name <$> before) ∧
       last (name <$> inserted_layers additional predecessor uuid) = Some tail ∧
       Forall2 (λ old new,
           name new = name old ∧ class_name new = class_name old ∧
           config_name new = config_name old ∧
           config_other new = config_other old ∧
           inbound_nodes new
           = ((λ n, if decide (n = predecessor) then tail else n)
                <$> inbound_nodes old))
         after after' ∧
       inject_layers from_config h self additional predecessor uuid
       = match from_config h
                 (before ++ anchor :: inserted_layers additional predecessor uuid
                    ++ after') with
         | Return (h', m) => (h', Make m, Return tail)
         | Raise e => (h, self, Raise e)
         end)
  ∧
  (∀ (from_config : list keras_layer → list layer
                    → result (list keras_layer * list nat))
     (h : list keras_layer) (self : Model.t) (additional : list layer)
     (predecessor : string) (uuid : UUID.t)
     (h' : list keras_layer) (self' : Model.t) (tail : string),
     predecessor ∈ name <$> get_config h (_model self) →
     inject_layers from_config h self additional predecessor uuid
     = (h', self', Return tail) →
     ∃ before anchor after after',
       get_config h (_model self) = before ++ anchor :: after ∧
       name anchor = predecessor ∧
       (predecessor ∉ name <$> before) ∧
       last (name <$> inserted_layers additional predecessor uuid) = Some tail ∧
       from_config h
         (before ++ anchor :: inserted_layers additional predecessor uuid ++ after')
       = Return (h', _model self') ∧
       Forall2 (λ old new,
           name new = name old ∧ class_name new = class_name old ∧
           config_name new = config_name old ∧
           config_other new = config_other old ∧
           inbound_nodes new
           = ((λ n, if decide (n = predecessor) then tail else n)
                <$> inbound_nodes old))
         after after')
  ∧
  (∀ (from_config : list keras_layer → list layer
                    → result (list keras_layer * list nat)),
     inject_layers from_config chain_store chain_model template_xy "A" uuid5
     = match from_config chain_store
               [dense "A" []; dense x' ["A"%string]; dense y' [x'];
                dense "B" [y']; dense "C" ["B"%string]] with
       | Return (h', m) => (h', Make m, Return y')
       | Raise e => (chain_store, chain_model, Raise e)
       end).
Proof.
  split_and!.
  - intros from_config h self additional predecessor uuid Hin Hne.
    destruct (first_named _ _ Hin) as (before & anchor & after & Hcfg & Ha & Hnot).
    destruct (inserted_layers_last additional predecessor uuid Hne) as [tail Htail].
    exists before, anchor, after, (relinked predecessor tail <$> after), tail.
    split_and!; try done; [apply relinked_Forall2|].
    by apply inject_layers_found.
  - intros from_config h self additional predecessor uuid h' self' tail Hin Hcall.
    destruct (first_named _ _ Hin) as (before & anchor & after & Hcfg & Ha & Hnot).
    destruct additional as [|a additional].
    { destruct (inject_layers_nothing_to_add from_config h self predecessor uuid Hin)
        as [Hraise|Hraise]; rewrite Hraise in Hcall; [done|].
      by destruct (from_config h _) as [[? ?]|?]. }
    destruct (inserted_layers_last (a :: additional) predecessor uuid) as [tail' Htail];
      [done|].
    rewrite (inject_layers_found from_config h self (a :: additional) predecessor
               uuid before anchor after tail') in Hcall by done.
    exists before, anchor, after, (relinked predecessor tail' <$> after).
    destruct (from_config h _) as [[h'' m]|e]; [|done].
    injection Hcall as -> <- ->.
    split_and!; try done. apply relinked_Forall2.
  - intros from_config.
    rewrite (inject_layers_found from_config chain_store chain_model template_xy
               "A" uuid5 [] (dense "A" []) [dense "B" ["A"%string];
                                            dense "C" ["B"%string]] y').
    + reflexivity.
    + reflexivity.
    + reflexivity.
    + apply not_elem_of_nil.
    + vm_compute. reflexivity.
Qed.

Lemma inject_relinks_downstream_witness :
  last (name <$> inserted_layers template_xy "A" uuid5) = Some y'.
Proof.
  destruct (proj1 (proj2 inject_relinks_downstream) (as_listed no_weights)
              chain_store chain_model template_xy "A" uuid5
              (inject_layers (as_listed no_weights) chain_store chain_model
                 template_xy "A" uuid5).1.1
              (inject_layers (as_listed no_weights) chain_store chain_model
                 template_xy "A" uuid5).1.2
              y')
    as (before & anchor & after & after' & _ & _ & _ & Hlast & _).
  - vm_compute. apply list_elem_of_here.
  - vm_compute. reflexivity.
  - exact Hlast.
Defined.

(** C6.  Injecting an empty list of layers behind [A] in the chain
    [A -> B -> C] does not complete: the loop raises [UnboundLocalError] at
    [B], the first layer behind the anchor, before the runtime is called, and
    the model is left as it was. *)
Theorem inject_nothing_raises :
  ∀ from_config : list keras_layer → list layer
                  → result (list keras_layer * list nat),
    inject_layers from_config chain_store chain_model [] "A" uuid5
    = (chain_store, chain_model, Raise UnboundLocalError).
Proof. intros from_config. vm_compute. reflexivity. Qed.

(** C7.  When no layer has the anchor's name, the scan inserts nothing and
    the runtime is handed the layers of the model as they are.  No tail was
    ever assigned, so once the runtime has rebuilt the model the call raises
    [UnboundLocalError] at its [return] instead of returning; an exception
    of the runtime is passed on. *)
Theorem inject_without_anchor_raises
    (from_config : list keras_layer → list layer
                   → result (list keras_layer * list nat))
    (h : list keras_layer) (self : Model.t) (additional : list layer)
    (predecessor : string) (uuid : UUID.t) :
  predecessor ∉ name <$> get_config h (_model self) →
  scan_layers additional predecessor uuid (get_config h (_model self))
              (Locals [] false None)
  = Return (Locals (get_config h (_model self)) false None) ∧
  inject_layers from_config h self additional predecessor uuid
  = match from_config h (get_config h (_model self)) with
    | Return (h', m) => (h', Make m, Raise UnboundLocalError)
    | Raise e => (h, self, Raise e)
    end.
Proof.
  intros Hnot. split; [|by apply inject_layers_not_found].
  by rewrite scan_layers_before.
Qed.

Lemma inject_without_anchor_raises_witness :
  (inject_layers (as_listed no_weights) chain_store chain_model template_xy "Z"
                 uuid5).2
  = Raise UnboundLocalError.
Proof.
  rewrite (proj2 (inject_without_anchor_raises (as_listed no_weights) chain_store
                    chain_model template_xy "Z" uuid5
                    ltac:(vm_compute; intros H;
                          repeat (apply elem_of_cons in H as [H|H]; [discriminate|]);
                          by apply elem_of_nil in H))).
  reflexivity.
Defined.

End inject_theorems.

(** * Generated names *)

Section name_facts.
Import Model.

Lemma chars_app (s1 s2 : string) :
  String.list_ascii_of_string (s1 +:+ s2)
  = String.list_ascii_of_string s1 ++ String.list_ascii_of_string s2.
Proof.
  induction s1 as [|c s1 IH]; [done|].
  change (String c s1 +:+ s2) with (String c (s1 +:+ s2)). simpl.
  by rewrite IH.
Qed.

Lemma chars_inj (s1 s2 : string) :
  String.list_ascii_of_string s1 = String.list_ascii_of_string s2 → s1 = s2.
Proof.
  intros H. rewrite <-(String.string_of_list_ascii_of_string s1).
  rewrite <-(String.string_of_list_ascii_of_string s2). by rewrite H.
Qed.

Lemma chars_length (s : string) :
  length (String.list_ascii_of_string s) = String.length s.
Proof. induction s as [|c s IH]; simpl; [done|]. by rewrite IH. Qed.

(** Two lists that agree and are both cut at the first occurrence of [x] are
    cut at the same place. *)
Lemma split_first {A : Type} (x : A) (l1 l2 r1 r2 : list A) :
  x ∉ l1 → x ∉ l2 → l1 ++ x :: r1 = l2 ++ x :: r2 → l1 = l2 ∧ r1 = r2.
Proof.
  revert l2. induction l1 as [|a l1 IH]; intros [|b l2] H1 H2 Heq; simpl in *.
  - by injection Heq as ->.
  - injection Heq as <- _. by apply not_elem_of_cons in H2 as [? _].
  - injection Heq as -> _. by apply not_elem_of_cons in H1 as [? _].
  - injection Heq as -> Heq.
    apply not_elem_of_cons in H1 as [_ H1]. apply not_elem_of_cons in H2 as [_ H2].
    destruct (IH l2 H1 H2 Heq) as [-> ->]. done.
Qed.

(** The same for the last occurrence. *)
Lemma split_last {A : Type} (x : A) (l1 l2 r1 r2 : list A) :
  x ∉ r1 → x ∉ r2 → l1 ++ x :: r1 = l2 ++ x :: r2 → l1 = l2 ∧ r1 = r2.
Proof.
  intros H1 H2 Heq. apply (f_equal reverse) in Heq.
  rewrite !reverse_app, !reverse_cons, <-!app_assoc in Heq. simpl in Heq.
  apply split_first in Heq as [Hr Hl]; [|by rewrite elem_of_reverse..].
  split; by apply (inj reverse).
Qed.

Lemma pretty_N_char_not_dash (x : N) : pretty_N_char x ≠ "-"%char.
Proof. unfold pretty_N_char. by repeat case_match. Qed.

Lemma pretty_N_go_no_dash (x : N) :
  ∀ s, "-"%char ∉ String.list_ascii_of_string s →
       "-"%char ∉ String.list_ascii_of_string (pretty_N_go x s).
Proof.
  induction (N.lt_wf_0 x) as [x _ IH]; intros s Hs.
  destruct (decide (x = 0)%N) as [->|Hx]; [by rewrite pretty_N_go_0|].
  rewrite pretty_N_go_step by lia. apply IH.
  - apply N.div_lt; lia.
  - simpl. apply not_elem_of_cons. split; [|done].
    intros H. by apply (pretty_N_char_not_dash (x `mod` 10)%N).
Qed.

(** The decimal form of a position has no dash in it. *)
Lemma pretty_nat_no_dash (i : nat) :
  "-"%char ∉ String.list_ascii_of_string (pretty i).
Proof.
  unfold pretty, pretty_nat, pretty, pretty_N. case_decide as Hi.
  - simpl. intros Hin. apply elem_of_cons in Hin as [?|Hin]; [done|].
    by apply elem_of_nil in Hin.
  - apply pretty_N_go_no_dash. simpl. apply not_elem_of_nil.
Qed.

Lemma hex_char_inj (x y : N) :
  (x < 16)%N → (y < 16)%N → UUID.hex_char x = UUID.hex_char y → x = y.
Proof.
  intros Hx Hy.
  assert (∀ z, (z < 16)%N → z ∈ (N.of_nat <$> seq 0 16)) as Hall.
  { intros z Hz. apply list_elem_of_fmap. exists (N.to_nat z).
    split; [lia|]. apply elem_of_seq. lia. }
  pose proof (Hall x Hx) as Hx'. pose proof (Hall y Hy) as Hy'.
  clear Hall Hx Hy. simpl in Hx', Hy'.
  repeat (apply elem_of_cons in Hx' as [->|Hx']);
    try (by apply elem_of_nil in Hx');
    repeat (apply elem_of_cons in Hy' as [->|Hy']);
    try (by apply elem_of_nil in Hy'); simpl; intros; congruence.
Qed.

Lemma hex_digits_length (width : nat) :
  ∀ n acc, String.length (UUID.hex_digits width n acc) = (width + String.length acc)%nat.
Proof.
  induction width as [|w IH]; intros n acc; simpl; [done|].
  rewrite IH. simpl. lia.
Qed.

Lemma hex_digits_inj (width : nat) :
  ∀ n m acc acc',
    UUID.hex_digits width n acc = UUID.hex_digits width m acc' →
    String.length acc = String.length acc' →
    (n `mod` 16 ^ N.of_nat width = m `mod` 16 ^ N.of_nat width)%N ∧ acc = acc'.
Proof.
  induction width as [|w IH]; intros n m acc acc' Heq Hlen.
  - simpl in *. split; [|done]. by rewrite !N.mod_1_r.
  - simpl in Heq. apply IH in Heq as [Hhigh Hacc]; [|simpl; lia].
    injection Hacc as Hc ->. split; [|done].
    apply hex_char_inj in Hc; [|by apply N.mod_lt..].
    rewrite Nat2N.inj_succ, N.pow_succ_r'.
    rewrite !N.Div0.mod_mul_r. by rewrite Hc, Hhigh.
Qed.

Lemma hex032_length (n : N) : String.length (UUID.hex032 n) = 32%nat.
Proof. unfold UUID.hex032. by rewrite hex_digits_length. Qed.

Lemma hex032_inj (n m : N) :
  (n < 2 ^ 128)%N → (m < 2 ^ 128)%N → UUID.hex032 n = UUID.hex032 m → n = m.
Proof.
  intros Hn Hm Heq. apply hex_digits_inj in Heq as [Heq _]; [|done].
  change (16 ^ N.of_nat 32)%N with (2 ^ 128)%N in Heq.
  by rewrite !N.mod_small in Heq.
Qed.

(** A string of 32 characters, spelled out. *)
Lemma string_32 (h : string) :
  String.length h = 32%nat →
  ∃ c : list ascii, length c = 32%nat ∧ h = String.string_of_list_ascii c.
Proof.
  intros Hlen. exists (String.list_ascii_of_string h).
  by rewrite chars_length, String.string_of_list_ascii_of_string.
Qed.

Ltac spell_out c H :=
  do 32 (destruct c as [|? c]; [discriminate H|]);
  destruct c; [|discriminate H]; clear H.

Lemma group_length (hex : string) :
  String.length hex = 32%nat → String.length (UUID.group hex) = 36%nat.
Proof.
  intros (c & Hc & ->)%string_32. spell_out c Hc. reflexivity.
Qed.

Lemma group_inj (hex1 hex2 : string) :
  String.length hex1 = 32%nat → String.length hex2 = 32%nat →
  UUID.group hex1 = UUID.group hex2 → hex1 = hex2.
Proof.
  intros (c1 & Hc1 & ->)%string_32 (c2 & Hc2 & ->)%string_32.
  spell_out c1 Hc1. spell_out c2 Hc2.
  vm_compute. intros Heq. injection Heq. intros. congruence.
Qed.

Lemma str_length (u : UUID.t) : String.length (UUID.str u) = 36%nat.
Proof. apply group_length, hex032_length. Qed.

Lemma str_inj (u1 u2 : UUID.t) :
  UUID.valid u1 → UUID.valid u2 → UUID.str u1 = UUID.str u2 → u1 = u2.
Proof.
  destruct u1 as [n], u2 as [m]. unfold UUID.valid, UUID.str. simpl.
  intros Hn Hm Heq. f_equal. apply hex032_inj; [done..|].
  apply group_inj; [apply hex032_length..|done].
Qed.

(** A generated name determines the position it was generated at. *)
Lemma generated_name_position (n1 n2 : string) (u1 u2 : UUID.t) (i1 i2 : nat) :
  generated_name n1 u1 i1 = generated_name n2 u2 i2 →
  i1 = i2 ∧ n1 +:+ "-" +:+ UUID.str u1 = n2 +:+ "-" +:+ UUID.str u2.
Proof.
  unfold generated_name. intros Heq. apply (inj (String.app _)) in Heq.
  apply (f_equal String.list_ascii_of_string) in Heq.
  rewrite !chars_app in Heq.
  change (String.list_ascii_of_string "-") with ["-"%char] in Heq.
  assert (∀ (a b c e : list ascii) (d : ascii),
    a ++ b ++ c ++ [d] ++ e = (a ++ b ++ c) ++ d :: e) as Hshape.
  { intros. by rewrite <-!app_assoc. }
  rewrite !Hshape in Heq.
  apply split_last in Heq as [Hfront Hdigits]; [|apply pretty_nat_no_dash..].
  split.
  - by apply (inj pretty), chars_inj.
  - apply chars_inj. by rewrite !chars_app.
Qed.

(** A generated name determines the identifier of the call as well. *)
Lemma generated_name_uuid (n1 n2 : string) (u1 u2 : UUID.t) (i1 i2 : nat) :
  UUID.valid u1 → UUID.valid u2 →
  generated_name n1 u1 i1 = generated_name n2 u2 i2 → u1 = u2.
Proof.
  intros Hu1 Hu2 [_ Heq]%generated_name_position.
  apply (f_equal String.list_ascii_of_string) in Heq.
  rewrite !chars_app in Heq.
  apply app_inj_2 in Heq as [_ Heq].
  - rewrite <-!chars_app in Heq. apply chars_inj in Heq.
    apply (inj (String.app _)) in Heq. by apply str_inj.
  - by rewrite !length_app, !chars_length, !str_length.
Qed.

Lemma generated_names_NoDup (adds : list layer) (u : UUID.t) :
  NoDup (imap (λ k a, generated_name (name a) u k) adds).
Proof.
  apply NoDup_alt. intros i j x Hi Hj.
  rewrite list_lookup_imap in Hi, Hj.
  destruct (adds !! i) as [a|]; [|done]. destruct (adds !! j) as [b|]; [|done].
  simpl in Hi, Hj. apply (inj Some) in Hi, Hj. subst x.
  by apply generated_name_position in Hj as [-> _].
Qed.

End name_facts.

Section name_theorems.
Import Model Examples.

(** C5.  The names generated by two calls of [inject_layers] that were given
    distinct identifiers are pairwise different: within a call they differ in
    the position that ends the name, across the calls in the identifier that
    every name carries. *)
Theorem generated_names_never_collide
    (adds1 adds2 : list layer) (pred1 pred2 : string) (u1 u2 : UUID.t) :
  UUID.valid u1 → UUID.valid u2 → u1 ≠ u2 →
  NoDup (name <$> (inserted_layers adds1 pred1 u1 ++ inserted_layers adds2 pred2 u2)).
Proof.
  intros Hu1 Hu2 Hne. rewrite fmap_app, !inserted_layers_names.
  apply NoDup_app. split_and!; [apply generated_names_NoDup| |apply generated_names_NoDup].
  intros x (i & a & -> & _)%elem_of_lookup_imap_1 (j & b & Hx & _)%elem_of_lookup_imap_1.
  by apply generated_name_uuid in Hx.
Qed.

Lemma generated_names_never_collide_witness :
  NoDup (name <$> (inserted_layers template_xy "A" uuid5
                   ++ inserted_layers template_xy "A" uuid6)).
Proof.
  apply (generated_names_never_collide template_xy template_xy "A" "A" uuid5 uuid6).
  - unfold UUID.valid. simpl. lia.
  - unfold UUID.valid. simpl. lia.
  - discriminate.
Defined.

End name_theorems.

(** * Properties of weight copying *)

Section copy_facts.
Import Model.

Lemma layers_cons_Some (h : list keras_layer) (l : nat) (m : list nat)
    (x : keras_layer) :
  h !! l = Some x → layers h (l :: m) = x :: layers h m.
Proof. intros H. unfold layers. simpl. by rewrite H. Qed.

Lemma layers_frame (h h' : list keras_layer) (m : list nat) :
  (∀ l, l ∈ m → h' !! l = h !! l) → layers h' m = layers h m.
Proof.
  unfold layers. induction m as [|l m IH]; intros Hsame; csimpl; [done|].
  rewrite (Hsame l) by left. rewrite IH; [done|].
  intros l' Hl'. apply Hsame. by right.
Qed.

(** The loop writes only to layers of [self] that it has paired up. *)
Lemma copy_loop_frame (early_stop : bool) (pairs : list (nat * nat)) :
  ∀ (h : list keras_layer) (l : nat),
    l ∉ pairs.*1 → (copy_loop early_stop pairs h).1 !! l = h !! l.
Proof.
  induction pairs as [|[this other] rest IH]; intros h l Hl; simpl; [done|].
  simpl in Hl. apply not_elem_of_cons in Hl as [Hne Hl].
  destruct (h !! this) as [this_layer|]; [|done].
  destruct (h !! other) as [other_layer|]; [|done].
  case_decide.
  - destruct early_stop; [done|by apply IH].
  - destruct (set_weights this_layer (get_weights other_layer)) as [this_layer'|e];
      [|done].
    rewrite IH by done. by apply list_lookup_insert_ne.
Qed.

Lemma not_elem_of_zip_fst (l : nat) (m1 m2 : list nat) :
  l ∉ m1 → l ∉ (zip m1 m2).*1.
Proof.
  intros Hl Hin. apply list_elem_of_fmap in Hin as ([a b] & -> & Hin).
  by apply elem_of_zip_l in Hin.
Qed.

(** [set_weights] takes the arrays exactly when they fit the layer. *)
Lemma set_weights_compatible (this_layer other_layer : keras_layer) :
  compatible this_layer other_layer →
  set_weights this_layer (get_weights other_layer)
  = Return (copied this_layer other_layer).
Proof. intros Hfit. unfold set_weights, get_weights. by rewrite decide_True. Qed.

Lemma set_weights_incompatible (this_layer other_layer : keras_layer) :
  ¬ compatible this_layer other_layer →
  set_weights this_layer (get_weights other_layer) = Raise ValueError.
Proof. intros Hfit. unfold set_weights, get_weights. by rewrite decide_False. Qed.

Lemma set_own_weights (x : keras_layer) : set_weights x (get_weights x) = Return x.
Proof. rewrite set_weights_compatible by done. by destruct x. Qed.

(** A model copied onto itself: nothing changes. *)
Lemma copy_loop_self (early_stop : bool) (m : list nat) :
  ∀ h : list keras_layer, copy_loop early_stop (zip m m) h = (h, Return ()).
Proof.
  induction m as [|l m IH]; intros h; simpl; [done|].
  destruct (h !! l) as [x|] eqn:Hx; [|done].
  rewrite decide_False by (intros Hne; by apply Hne).
  rewrite set_own_weights, list_insert_id by done. apply IH.
Qed.

Lemma transplanted_self (early_stop : bool) (ls : list keras_layer) :
  transplanted early_stop ls ls = (ls, Return ()).
Proof.
  induction ls as [|x ls IH]; simpl; [done|].
  rewrite decide_False by (intros Hne; by apply Hne).
  by rewrite set_own_weights, IH.
Qed.

(** The loop on two models that share no layer. *)
Lemma copy_loop_disjoint (early_stop : bool) (these : list nat) :
  ∀ (others : list nat) (h : list keras_layer),
    NoDup these →
    these ## others →
    (∀ l, l ∈ these → is_Some (h !! l)) →
    (∀ l, l ∈ others → is_Some (h !! l)) →
    (layers (copy_loop early_stop (zip these others) h).1 these,
     (copy_loop early_stop (zip these others) h).2)
    = transplanted early_stop (layers h these) (layers h others).
Proof.
  induction these as [|this these IH]; intros others h Hnodup Hdisj Hthese Hothers;
    [done|].
  apply NoDup_cons in Hnodup as [Hthis Hnodup].
  destruct (Hthese this ltac:(left)) as [this_layer Hthis_layer].
  destruct others as [|other others].
  { rewrite !(layers_cons_Some h this _ _ Hthis_layer). reflexivity. }
  destruct (Hothers other ltac:(left)) as [other_layer Hother_layer].
  assert (these ## others) as Hdisj'.
  { intros l H1 H2. apply (Hdisj l); by right. }
  assert (this ∉ others) as Hthis'.
  { intros H. apply (Hdisj this); [left|by right]. }
  rewrite (layers_cons_Some h this _ _ Hthis_layer),
    (layers_cons_Some h other _ _ Hother_layer).
  cbn [copy_loop transplanted zip_with]. rewrite Hthis_layer, Hother_layer.
  case_decide as Hname.
  - destruct early_stop.
    + by rewrite (layers_cons_Some h this _ this_layer).
    + pose proof (IH others h Hnodup Hdisj'
                    ltac:(intros l Hl; apply Hthese; by right)
                    ltac:(intros l Hl; apply Hothers; by right)) as IH'.
      destruct (transplanted false (layers h these) (layers h others)) as [rest outcome].
      injection IH' as Hrest Houtcome.
      rewrite (layers_cons_Some _ this _ this_layer), Hrest, Houtcome; [done|].
      rewrite copy_loop_frame; [done|]. by apply not_elem_of_zip_fst.
  - destruct (set_weights this_layer (get_weights other_layer)) as [this_layer'|e];
      [|by rewrite (layers_cons_Some h this _ this_layer)].
    pose proof (lookup_lt_Some _ _ _ Hthis_layer) as Hlt.
    pose proof (IH others (<[this := this_layer']> h) Hnodup Hdisj'
                  ltac:(intros l Hl; rewrite list_lookup_insert_ne by congruence;
                        apply Hthese; by right)
                  ltac:(intros l Hl; rewrite list_lookup_insert_ne by congruence;
                        apply Hothers; by right)) as IH'.
    rewrite (layers_frame h (<[this := this_layer']> h) these),
      (layers_frame h (<[this := this_layer']> h) others) in IH'
      by (intros l Hl; apply list_lookup_insert_ne; congruence).
    destruct (transplanted early_stop (layers h these) (layers h others))
      as [rest outcome].
    injection IH' as Hrest Houtcome.
    rewrite (layers_cons_Some _ this _ this_layer'), Hrest, Houtcome; [done|].
    rewrite copy_loop_frame by (by apply not_elem_of_zip_fst).
    by apply list_lookup_insert_eq.
Qed.

(** The layers of the destination after the call and the way the call
    ended, in terms of the layers of both models before it. *)
Lemma copy_weights_transplanted (h : list keras_layer) (self other : Model.t)
    (early_stop : bool) :
  NoDup (_model self) →
  _model self = _model other ∨ _model self ## _model other →
  (∀ l, l ∈ _model self → is_Some (h !! l)) →
  (∀ l, l ∈ _model other → is_Some (h !! l)) →
  (layers (copy_weights h self other early_stop).1 (_model self),
   (copy_weights h self other early_stop).2)
  = transplanted early_stop (layers h (_model self)) (layers h (_model other)).
Proof.
  intros Hnodup [Heq|Hdisj] Hself Hother; unfold copy_weights.
  - by rewrite <-Heq, copy_loop_self, transplanted_self.
  - by apply copy_loop_disjoint.
Qed.

Lemma transplanted_length (early_stop : bool) (these : list keras_layer) :
  ∀ others, length (transplanted early_stop these others).1 = length these.
Proof.
  induction these as [|d these IH]; intros [|s others]; simpl; try done.
  specialize (IH others).
  destruct (transplanted early_stop these others) as [rest outcome].
  case_decide; [destruct early_stop|destruct (set_weights _ _)]; simpl in *;
    by rewrite ?IH.
Qed.

(** Where the walk ends: at the end of the shorter model, at different names
    under early stop, or at equal names whose parameters do not fit.  The
    positions in front are copied at equal names and kept at different ones,
    the positions from there on are as they were, and the call raises in the
    last of the three cases only. *)
Lemma transplanted_walk (early_stop : bool) (these : list keras_layer) :
  ∀ others : list keras_layer,
    ∃ k : nat,
      (k ≤ length these ∧ k ≤ length others)%nat ∧
      (∀ j d s, (j < k)%nat → these !! j = Some d → others !! j = Some s →
         (transplanted early_stop these others).1 !! j
         = Some (if decide (layer_name d = layer_name s) then copied d s else d) ∧
         (layer_name d = layer_name s → compatible d s) ∧
         (layer_name d ≠ layer_name s → early_stop = false)) ∧
      (∀ i, (k ≤ i)%nat → (transplanted early_stop these others).1 !! i = these !! i) ∧
      match these !! k, others !! k with
      | Some d, Some s =>
          if decide (layer_name d = layer_name s)
          then ¬ compatible d s ∧
               (transplanted early_stop these others).2 = Raise ValueError
          else early_stop = true ∧
               (transplanted early_stop these others).2 = Return ()
      | _, _ => (transplanted early_stop these others).2 = Return ()
      end.
Proof.
  induction these as [|d' these IH]; intros [|s' others].
  - exists 0%nat. split_and!; simpl; try done; try (intros; lia).
  - exists 0%nat. split_and!; simpl; try done; try (intros; lia).
  - exists 0%nat. split_and!; simpl; try done; try (intros; lia).
  - destruct (IH others) as (k & [Hk1 Hk2] & Hfront & Hrest & Hend).
    simpl. case_decide as Hname.
    + destruct early_stop.
      * exists 0%nat. split_and!; simpl; try done; try (intros; lia).
        by rewrite decide_False by (intros ?; by apply Hname).
      * destruct (transplanted false these others) as [rest outcome].
        exists (S k). split_and!; simpl; try lia; [|by intros [|i] Hi; [lia|];
          simpl; apply Hrest; lia|done].
        intros [|j] d s Hj Hd Hs; simpl in *.
        -- injection Hd as ->. injection Hs as ->.
           by rewrite decide_False by (intros ?; by apply Hname).
        -- apply Hfront; [lia|done..].
    + destruct (decide (compatible d' s')) as [Hfit|Hfit].
      * rewrite set_weights_compatible by done.
        destruct (transplanted early_stop these others) as [rest outcome].
        exists (S k). split_and!; simpl; try lia; [|by intros [|i] Hi; [lia|];
          simpl; apply Hrest; lia|done].
        intros [|j] d s Hj Hd Hs; simpl in *.
        -- injection Hd as ->. injection Hs as ->.
           by destruct (decide (layer_name d = layer_name s)).
        -- apply Hfront; [lia|done..].
      * rewrite set_weights_incompatible by done.
        exists 0%nat. split_and!; simpl; try done; try (intros; lia).
        by destruct (decide (layer_name d' = layer_name s')).
Qed.

(** When the parameters fit wherever the names agree, the call returns and
    the walk is the lockstep one. *)
Lemma transplanted_lockstep (early_stop : bool) (these : list keras_layer) :
  ∀ others : list keras_layer,
    (∀ i d s, these !! i = Some d → others !! i = Some s →
              layer_name d = layer_name s → compatible d s) →
    transplanted early_stop these others
    = (lockstep early_stop these others, Return ()).
Proof.
  induction these as [|d these IH]; intros [|s others] Hfit; try done.
  simpl. case_decide as Hname.
  - destruct early_stop; [done|]. rewrite IH; [done|].
    intros i. apply (Hfit (S i)).
  - rewrite set_weights_compatible.
    + rewrite IH; [done|]. intros i. apply (Hfit (S i)).
    + apply (Hfit 0%nat); [done..|].
      by destruct (decide (layer_name d = layer_name s)).
Qed.

(** Without early stop every position is decided on its own. *)
Lemma lockstep_skip (these : list keras_layer) :
  ∀ (others : list keras_layer) (i : nat) (d : keras_layer),
    these !! i = Some d →
    lockstep false these others !! i
    = Some match others !! i with
           | Some s => if decide (layer_name d = layer_name s) then copied d s else d
           | None => d
           end.
Proof.
  induction these as [|d' these IH]; intros [|s others] i d Hd; try done.
  simpl. destruct i as [|i]; simpl in *.
  - injection Hd as ->. case_decide; [by rewrite decide_False|].
    rewrite decide_True; [done|]. by destruct (decide (layer_name d = layer_name s)).
  - case_decide; simpl; by apply IH.
Qed.

(** With early stop the copy covers exactly the positions in front of the
    first pair whose names differ. *)
Lemma lockstep_stop (these : list keras_layer) :
  ∀ others : list keras_layer,
    ∃ k : nat,
      (k ≤ length these ∧ k ≤ length others)%nat ∧
      (∀ j d s, (j < k)%nat → these !! j = Some d → others !! j = Some s →
                layer_name d = layer_name s ∧
                lockstep true these others !! j = Some (copied d s)) ∧
      (∀ d s, these !! k = Some d → others !! k = Some s →
              layer_name d ≠ layer_name s) ∧
      (∀ i, (k ≤ i)%nat → lockstep true these others !! i = these !! i).
Proof.
  induction these as [|d' these IH]; intros [|s' others].
  - exists 0%nat. split_and!; simpl; try done; try (intros; lia).
  - exists 0%nat. split_and!; simpl; try done; try (intros; lia).
  - exists 0%nat. split_and!; simpl; try done; try (intros; lia).
  - simpl. case_decide as Hname.
    + exists 0%nat. split_and!; simpl; try done; try (intros; lia).
      intros d s [= ->] [= ->]. done.
    + destruct (IH others) as (k & [Hk1 Hk2] & Hcopied & Hdiffer & Hrest).
      exists (S k). split_and!; simpl; try lia.
      * intros [|j] d s Hj Hd Hs; simpl in *.
        -- injection Hd as ->. injection Hs as ->. split; [|done].
           by destruct (decide (layer_name d = layer_name s)).
        -- apply Hcopied; [lia|done..].
      * done.
      * intros [|i] Hi; [lia|]. simpl. apply Hrest. lia.
Qed.

End copy_facts.

Section copy_theorems.
Import Model Examples.

(** C4, as the code has it.  [copy_weights] pairs the layers of the two
    models by position and never changes the number of layers of the
    destination [self].  The walk ends at a position [k]: the end of the
    shorter model, or the first pair whose names differ when [early_stop] is
    set, or the first pair whose names agree but whose parameters do not fit
    (another number of arrays or other shapes), where the call raises
    [ValueError].  In front of [k] a position has received the parameters of
    the source [other] when its two names agree and is as it was when they
    differ; from [k] on every position is as it was, equal names or not.
    When the parameters fit wherever the names agree, the call returns:
    without early stop position [i] is copied exactly when the names at [i]
    agree, and with early stop everything in front of the first pair of
    different names is copied and nothing behind it.  For the source
    [[a, b, c]] and the destination [[a, x, c]], positions 0 and 2 are copied
    without early stop and position 0 alone with it. *)
Theorem copy_weights_lockstep :
  (∀ (h : list keras_layer) (self other : Model.t) (early_stop : bool),
     NoDup (_model self) →
     _model self = _model other ∨ _model self ## _model other →
     (∀ l, l ∈ _model self → is_Some (h !! l)) →
     (∀ l, l ∈ _model other → is_Some (h !! l)) →
     let these := layers h (_model self) in
     let others := layers h (_model other) in
     let result := layers (copy_weights h self other early_stop).1 (_model self) in
     let outcome := (copy_weights h self other early_stop).2 in
     length result = length these ∧
     (∃ k : nat,
        (k ≤ length these ∧ k ≤ length others)%nat ∧
        (∀ j d s, (j < k)%nat → these !! j = Some d → others !! j = Some s →
           result !! j
           = Some (if decide (layer_name d = layer_name s) then copied d s else d) ∧
           (layer_name d = layer_name s → compatible d s) ∧
           (layer_name d ≠ layer_name s → early_stop = false)) ∧
        (∀ i, (k ≤ i)%nat → result !! i = these !! i) ∧
        match these !! k, others !! k with
        | Some d, Some s =>
            if decide (layer_name d = layer_name s)
            then ¬ compatible d s ∧ outcome = Raise ValueError
            else early_stop = true ∧ outcome = Return ()
        | _, _ => outcome = Return ()
        end) ∧
     ((∀ i d s, these !! i = Some d → others !! i = Some s →
                layer_name d = layer_name s → compatible d s) →
      outcome = Return () ∧
      (early_stop = false →
       ∀ i d, these !! i = Some d →
         result !! i
         = Some match others !! i with
                | Some s =>
                    if decide (layer_name d = layer_name s) then copied d s else d
                | None => d
                end) ∧
      (early_stop = true →
       ∃ k : nat,
         (k ≤ length these ∧ k ≤ length others)%nat ∧
         (∀ j d s, (j < k)%nat → these !! j = Some d → others !! j = Some s →
                   layer_name d = layer_name s ∧
                   result !! j = Some (copied d s)) ∧
         (∀ d s, these !! k = Some d → others !! k = Some s →
                 layer_name d ≠ layer_name s) ∧
         (∀ i, (k ≤ i)%nat → result !! i = these !! i))))
  ∧
  (copy_weights two_models destination source false).2 = Return () ∧
  layers (copy_weights two_models destination source false).1 (_model destination)
  = [trained "a" 10; trained "x" 2; trained "c" 30]
  ∧
  (copy_weights two_models destination source true).2 = Return () ∧
  layers (copy_weights two_models destination source true).1 (_model destination)
  = [trained "a" 10; trained "x" 2; trained "c" 3].
Proof.
  split_and!; [|vm_compute; reflexivity..].
  intros h self other early_stop Hnodup Hshare Hself Hother these others result
    outcome.
  pose proof (copy_weights_transplanted h self other early_stop Hnodup Hshare
                Hself Hother) as Hcopy.
  fold these others result outcome in Hcopy.
  assert (result = (transplanted early_stop these others).1) as Hresult
    by (by rewrite <-Hcopy).
  assert (outcome = (transplanted early_stop these others).2) as Houtcome
    by (by rewrite <-Hcopy).
  rewrite Hresult, Houtcome. split_and!.
  - apply transplanted_length.
  - apply transplanted_walk.
  - intros Hfit. rewrite transplanted_lockstep by done. simpl. split_and!.
    + done.
    + intros ->. apply lockstep_skip.
    + intros ->. apply lockstep_stop.
Qed.

Lemma two_models_disjoint : _model destination ## _model source.
Proof.
  intros l H1 H2. simpl in H1, H2.
  repeat (apply elem_of_cons in H1 as [->|H1]);
    try (by apply elem_of_nil in H1);
    repeat (apply elem_of_cons in H2 as [H2|H2]; [discriminate H2|]);
    by apply elem_of_nil in H2.
Qed.

Lemma destination_NoDup : NoDup (_model destination).
Proof. simpl. compute_done. Qed.

Lemma two_models_live (m : Model.t) :
  m = destination ∨ m = source →
  ∀ l, l ∈ _model m → is_Some (two_models !! l).
Proof.
  intros [-> | ->] l Hl; simpl in Hl;
    repeat (apply elem_of_cons in Hl as [->|Hl]; [by eexists|]);
    by apply elem_of_nil in Hl.
Qed.

Lemma two_models_compatible (i : nat) (d s : keras_layer) :
  layers two_models (_model destination) !! i = Some d →
  layers two_models (_model source) !! i = Some s →
  layer_name d = layer_name s → compatible d s.
Proof.
  destruct i as [|[|[|i]]]; simpl; intros [= <-] [= <-]; done.
Qed.

Lemma copy_weights_lockstep_witness :
  layers (copy_weights two_models destination source false).1 (_model destination)
    !! 2%nat
  = Some (copied (trained "c" 3) (trained "c" 30)).
Proof.
  destruct (proj1 copy_weights_lockstep two_models destination source false)
    as (_ & _ & Hfit).
  - apply destination_NoDup.
  - right. apply two_models_disjoint.
  - apply two_models_live. by left.
  - apply two_models_live. by right.
  - destruct (Hfit two_models_compatible) as (_ & Hskip & _).
    apply (Hskip eq_refl 2%nat (trained "c" 3)). reflexivity.
Defined.

(** C4 fails on the code as the claim has it: the two models list the names
    [a], [b], [c], but the source's [b] holds an array of another shape, so
    the call raises at position 1 and position 2, whose names agree, is not
    copied. *)
Lemma copy_weights_stops_at_misfit :
  layer_name <$> layers mismatched (_model destination) = ["a"; "b"; "c"]%string ∧
  layer_name <$> layers mismatched (_model source) = ["a"; "b"; "c"]%string ∧
  (copy_weights mismatched destination source false).2 = Raise ValueError ∧
  layers (copy_weights mismatched destination source false).1 (_model destination)
  = [trained "a" 10; trained "b" 2; trained "c" 3].
Proof. split_and!; vm_compute; reflexivity. Qed.

(** C9.  [copy_weights] leaves the source model as it was: after the call,
    however it ended, the layers of [other_model], in order, have the names
    and the parameters they had before it, with or without early stop.  Two
    models share layer objects only when they are one and the same model. *)
Theorem copy_weights_leaves_source (h : list keras_layer) (self other : Model.t)
    (early_stop : bool) :
  _model self = _model other ∨ _model self ## _model other →
  layers (copy_weights h self other early_stop).1 (_model other)
  = layers h (_model other).
Proof.
  intros [Heq|Hdisj]; unfold copy_weights.
  - by rewrite <-Heq, copy_loop_self.
  - apply layers_frame. intros l Hl. apply copy_loop_frame.
    apply not_elem_of_zip_fst. intros Hl'. by apply (Hdisj l).
Qed.

Lemma copy_weights_leaves_source_witness :
  layers (copy_weights two_models destination source true).1 (_model source)
  = layers two_models (_model source).
Proof.
  apply (copy_weights_leaves_source two_models destination source true).
  right. apply two_models_disjoint.
Defined.

End copy_theorems.

(** * Further properties of the schedule *)

Section schedule_extras.
Import OptimizerSchedule OptimizerSchedulerCallback Examples.

Lemma scan_same_reached {V : Type} (d : gmap Z V) (e1 e2 : Z) (threshs : list Z) :
  (∀ t, t ∈ threshs → (t ≤ e1 ↔ t ≤ e2)) →
  scan d e1 threshs = scan d e2 threshs.
Proof.
  induction threshs as [|h threshs IH]; intros Hsame; [done|].
  simpl. pose proof (Hsame h ltac:(left)) as Hh.
  destruct (decide (e1 >= h)), (decide (e2 >= h)); try lia; [done|].
  apply IH. intros t Ht. apply Hsame. by right.
Qed.

Lemma getitem_piecewise_constant_aux (self : OptimizerSchedule.t) (e1 e2 : Z) :
  e1 ≤ e2 →
  (∀ t, is_Some (optimizers self !! t) → ¬ (e1 < t ≤ e2)) →
  __getitem__ self e1 = __getitem__ self e2.
Proof.
  intros Hle Hgap. unfold __getitem__, _opt_scheduler.
  apply scan_same_reached. intros t Ht.
  apply elem_of_sorted_reverse, elem_of_dict_keys in Ht.
  specialize (Hgap t Ht). lia.
Qed.

(** X1.  The lookup is piecewise constant: two epochs with no declared
    threshold above the first and up to the second get the same answer,
    whether that is an optimizer or [None]. *)
Theorem getitem_piecewise_constant (self : OptimizerSchedule.t) (e1 e2 : Z) :
  e1 ≤ e2 →
  (∀ t, is_Some (optimizers self !! t) → ¬ (e1 < t ≤ e2)) →
  __getitem__ self e1 = __getitem__ self e2.
Proof. apply getitem_piecewise_constant_aux. Qed.

Lemma three_steps_optimizers_keys (t : Z) :
  is_Some (optimizers three_steps_schedule !! t) → t = 0 ∨ t = 5 ∨ t = 10.
Proof.
  simpl. intros [q Hq].
  destruct (decide (t = 0)); [auto|].
  destruct (decide (t = 5)); [auto|].
  destruct (decide (t = 10)); [auto|].
  rewrite !lookup_insert_ne, lookup_singleton_ne in Hq by done. done.
Qed.

Lemma getitem_piecewise_constant_witness :
  __getitem__ three_steps_schedule 5 = __getitem__ three_steps_schedule 9.
Proof.
  apply (getitem_piecewise_constant three_steps_schedule 5 9).
  - lia.
  - intros t Ht%three_steps_optimizers_keys. lia.
Defined.

(** [_params_scheduler] on a constructed schedule. *)
Lemma params_scheduler_spec
    (deserialize : opt_params → result optimizer)
    (p : params_arg) (epochs : Z)
    (self : OptimizerSchedule.t) (epoch : Z) :
  __init__ deserialize p epochs = Return self →
  (∀ thresh entry,
     normalise p !! thresh = Some entry →
     thresh ≤ epoch →
     (∀ t, is_Some (normalise p !! t) → t ≤ epoch → t ≤ thresh) →
     _params_scheduler self epoch = Return (Some entry)) ∧
  ((∀ t, is_Some (normalise p !! t) → epoch < t) →
   _params_scheduler self epoch = Return None).
Proof.
  intros (Hparams & _ & _)%init_Return. unfold _params_scheduler.
  rewrite Hparams. split.
  - intros thresh entry Hentry Hle Hmax. by apply scheduler_greatest with thresh.
  - apply scheduler_none.
Qed.

(** X2.  [_params_scheduler] on a constructed schedule returns the entry of
    the threshold map, as given to the constructor, at the greatest
    threshold not above the epoch, and [None] when the epoch is below every
    threshold. *)
Theorem params_scheduler_greatest
    (deserialize : opt_params → result optimizer)
    (p : params_arg) (epochs : Z)
    (self : OptimizerSchedule.t) (epoch : Z) :
  __init__ deserialize p epochs = Return self →
  (∀ thresh entry,
     normalise p !! thresh = Some entry →
     thresh ≤ epoch →
     (∀ t, is_Some (normalise p !! t) → t ≤ epoch → t ≤ thresh) →
     _params_scheduler self epoch = Return (Some entry)) ∧
  ((∀ t, is_Some (normalise p !! t) → epoch < t) →
   _params_scheduler self epoch = Return None).
Proof. apply params_scheduler_spec. Qed.

Lemma params_scheduler_greatest_witness :
  _params_scheduler three_steps_schedule 7 = Return (Some cfgB).
Proof.
  apply (proj1 (params_scheduler_greatest accept_scalar (Thresholds three_steps) 20
                  three_steps_schedule 7 ltac:(vm_compute; reflexivity)) 5 cfgB).
  - reflexivity.
  - lia.
  - intros t Ht%three_steps_keys. lia.
Defined.

Lemma lr_loop_unreached (epoch : Z) (items : list (Z * scalar)) :
  ∀ lr, (∀ t v, (t, v) ∈ items → epoch < t) → lr_loop epoch items lr = lr.
Proof.
  unfold lr_loop. induction items as [|[t v] items IH]; intros lr Hall; [done|].
  simpl. rewrite decide_False by (specialize (Hall t v ltac:(left)); lia).
  apply IH. intros t' v' Hin. apply (Hall t' v'). by right.
Qed.

Lemma lr_loop_last_reached (epoch : Z) (front back : list (Z * scalar))
    (t : Z) (v : scalar) (lr : option scalar) :
  t ≤ epoch →
  (∀ t' v', (t', v') ∈ back → epoch < t') →
  lr_loop epoch (front ++ (t, v) :: back) lr = Some v.
Proof.
  intros Ht Hback. unfold lr_loop. rewrite foldl_app. simpl.
  rewrite decide_True by lia. by apply lr_loop_unreached.
Qed.

(** [_lr_scheduler] on an entry with a nested map. *)
Lemma lr_scheduler_nested_spec
    (deserialize : opt_params → result optimizer)
    (p : params_arg) (epochs : Z)
    (self : OptimizerSchedule.t) (epoch thresh : Z) (entry : opt_params)
    (d : list (Z * scalar)) :
  __init__ deserialize p epochs = Return self →
  normalise p !! thresh = Some entry →
  thresh ≤ epoch →
  (∀ t, is_Some (normalise p !! t) → t ≤ epoch → t ≤ thresh) →
  config_learning_rate entry = PerEpoch d →
  (∀ front back t v,
     d = front ++ (t, v) :: back →
     t ≤ epoch →
     (∀ t' v', (t', v') ∈ back → epoch < t') →
     _lr_scheduler self epoch = Return (Some v)) ∧
  ((∀ t v, (t, v) ∈ d → epoch < t) →
   _lr_scheduler self epoch = Return None).
Proof.
  intros Hinit Hentry Hle Hmax Hlr. unfold _lr_scheduler.
  rewrite (proj1 (params_scheduler_spec deserialize p epochs self epoch Hinit)
             thresh entry Hentry Hle Hmax).
  simpl. rewrite Hlr. split.
  - intros front back t v -> Ht Hback. simpl.
    by rewrite lr_loop_last_reached.
  - intros Hnone. simpl. by rewrite lr_loop_unreached.
Qed.

(** X3.  What [_lr_scheduler] returns for an entry with a nested map: the
    value of the item listed last among those whose threshold the epoch has
    reached, and [None] when the epoch has reached none of them. *)
Theorem lr_scheduler_last_listed
    (deserialize : opt_params → result optimizer)
    (p : params_arg) (epochs : Z)
    (self : OptimizerSchedule.t) (epoch thresh : Z) (entry : opt_params)
    (d : list (Z * scalar)) :
  __init__ deserialize p epochs = Return self →
  normalise p !! thresh = Some entry →
  thresh ≤ epoch →
  (∀ t, is_Some (normalise p !! t) → t ≤ epoch → t ≤ thresh) →
  config_learning_rate entry = PerEpoch d →
  (∀ front back t v,
     d = front ++ (t, v) :: back →
     t ≤ epoch →
     (∀ t' v', (t', v') ∈ back → epoch < t') →
     _lr_scheduler self epoch = Return (Some v)) ∧
  ((∀ t v, (t, v) ∈ d → epoch < t) →
   _lr_scheduler self epoch = Return None).
Proof. apply lr_scheduler_nested_spec. Qed.

Lemma nested_unordered_keys (t : Z) : is_Some (nested_unordered !! t) → t = 0.
Proof.
  unfold nested_unordered. intros [q Hq]. destruct (decide (t = 0)); [done|].
  by rewrite lookup_singleton_ne in Hq.
Qed.

Lemma lr_scheduler_last_listed_witness :
  _lr_scheduler nested_unordered_schedule 7 = Return (Some 0.1%Q).
Proof.
  apply (proj1 (lr_scheduler_last_listed accept_scalar (Thresholds nested_unordered) 20
                  nested_unordered_schedule 7 0
                  (sgd (PerEpoch [(3, 0.01%Q); (0, 0.1%Q)]))
                  [(3, 0.01%Q); (0, 0.1%Q)]
                  ltac:(vm_compute; reflexivity) ltac:(reflexivity) ltac:(lia)
                  ltac:(intros t Ht%nested_unordered_keys; lia)
                  ltac:(reflexivity))
           [(3, 0.01%Q)] [] 0 0.1%Q).
  - reflexivity.
  - lia.
  - intros t' v' Hin. by apply elem_of_nil in Hin.
Defined.

(** X4.  When the nested map lists its keys in ascending order,
    [_lr_scheduler] returns the value at the greatest nested threshold not
    above the epoch. *)
Theorem lr_scheduler_ascending
    (deserialize : opt_params → result optimizer)
    (p : params_arg) (epochs : Z)
    (self : OptimizerSchedule.t) (epoch thresh : Z) (entry : opt_params)
    (d : list (Z * scalar)) (t : Z) (v : scalar) :
  __init__ deserialize p epochs = Return self →
  normalise p !! thresh = Some entry →
  thresh ≤ epoch →
  (∀ t', is_Some (normalise p !! t') → t' ≤ epoch → t' ≤ thresh) →
  config_learning_rate entry = PerEpoch d →
  StronglySorted Z.lt d.*1 →
  (t, v) ∈ d →
  t ≤ epoch →
  (∀ t' v', (t', v') ∈ d → t' ≤ epoch → t' ≤ t) →
  _lr_scheduler self epoch = Return (Some v).
Proof.
  intros Hinit Hentry Hle Hmax Hlr Hsorted Hin Ht Hgreatest.
  apply list_elem_of_split in Hin as (front & back & ->).
  apply (proj1 (lr_scheduler_nested_spec deserialize p epochs self epoch thresh entry _
                  Hinit Hentry Hle Hmax Hlr) front back t v); [done..|].
  intros t' v' Hback.
  rewrite fmap_app, fmap_cons in Hsorted. simpl in Hsorted.
  apply StronglySorted_app_1_r, StronglySorted_inv in Hsorted as [_ Hall].
  rewrite Forall_forall in Hall.
  assert (t < t') as Hlt.
  { apply Hall. apply list_elem_of_fmap. by exists (t', v'). }
  destruct (decide (t' ≤ epoch)) as [Hreached|]; [|lia].
  assert (t' ≤ t); [|lia].
  apply (Hgreatest t' v'); [|done].
  apply elem_of_app. right. by right.
Qed.

Lemma nested_keys (t : Z) : is_Some (nested !! t) → t = 0.
Proof.
  unfold nested. intros [q Hq]. destruct (decide (t = 0)); [done|].
  by rewrite lookup_singleton_ne in Hq.
Qed.

Lemma lr_scheduler_ascending_witness :
  _lr_scheduler nested_schedule 100 = Return (Some 0.01%Q).
Proof.
  apply (lr_scheduler_ascending accept_scalar (Thresholds nested) 20 nested_schedule 100 0
           (sgd (PerEpoch [(0, 0.1%Q); (3, 0.01%Q)]))
           [(0, 0.1%Q); (3, 0.01%Q)] 3 0.01%Q).
  - vm_compute. reflexivity.
  - reflexivity.
  - lia.
  - intros t' Ht'%nested_keys. lia.
  - reflexivity.
  - simpl. repeat constructor.
  - apply list_elem_of_further, list_elem_of_here.
  - lia.
  - intros t' v' Hin _.
    repeat (apply elem_of_cons in Hin as [[= -> ->]|Hin]; [lia|]).
    by apply elem_of_nil in Hin.
Defined.

(** X5.  For an entry whose learning rate is a plain number,
    [_lr_scheduler] reports that number as it was configured, and the
    optimizer that the subscript lookup returns at the same epoch is the one
    that [deserialize] built from this very entry. *)
Theorem lr_scheduler_scalar
    (deserialize : opt_params → result optimizer)
    (p : params_arg) (epochs : Z)
    (self : OptimizerSchedule.t) (epoch thresh : Z) (entry : opt_params)
    (v : scalar) :
  __init__ deserialize p epochs = Return self →
  normalise p !! thresh = Some entry →
  thresh ≤ epoch →
  (∀ t, is_Some (normalise p !! t) → t ≤ epoch → t ≤ thresh) →
  config_learning_rate entry = Scalar v →
  _lr_scheduler self epoch = Return (Some v) ∧
  ∃ o, deserialize entry = Return o ∧ __getitem__ self epoch = Return (Some o).
Proof.
  intros Hinit Hentry Hle Hmax Hlr. split.
  - unfold _lr_scheduler.
    rewrite (proj1 (params_scheduler_spec deserialize p epochs self epoch Hinit)
               thresh entry Hentry Hle Hmax).
    simpl. by rewrite Hlr.
  - destruct (getitem_greatest deserialize p epochs self epoch thresh entry)
      as (o & Ho & Hget); try done.
    exists o. split; [|done]. unfold make_optimizer in Ho. by rewrite Hlr in Ho.
Qed.

Lemma lr_scheduler_scalar_witness :
  _lr_scheduler three_steps_schedule 7 = Return (Some 0.05%Q) ∧
  ∃ o, accept_scalar cfgB = Return o ∧
       __getitem__ three_steps_schedule 7 = Return (Some o).
Proof.
  apply (lr_scheduler_scalar accept_scalar (Thresholds three_steps) 20
           three_steps_schedule 7 5 cfgB 0.05%Q).
  - vm_compute. reflexivity.
  - reflexivity.
  - lia.
  - intros t Ht%three_steps_keys. lia.
  - reflexivity.
Defined.

(** X6.  Below every declared threshold the two lookups differ: the
    subscript lookup returns [None], while [_lr_scheduler] raises
    [TypeError], because it subscripts the [None] that [_params_scheduler]
    returned. *)
Theorem lr_scheduler_before_first_threshold
    (deserialize : opt_params → result optimizer)
    (p : params_arg) (epochs : Z)
    (self : OptimizerSchedule.t) (epoch : Z) :
  __init__ deserialize p epochs = Return self →
  (∀ t, is_Some (normalise p !! t) → epoch < t) →
  _lr_scheduler self epoch = Raise TypeError ∧
  __getitem__ self epoch = Return None.
Proof.
  intros Hinit Hbelow. split; [|by apply (getitem_none deserialize p epochs)].
  unfold _lr_scheduler.
  by rewrite (proj2 (params_scheduler_spec deserialize p epochs self epoch Hinit) Hbelow).
Qed.

Lemma lr_scheduler_before_first_threshold_witness :
  _lr_scheduler late_start_schedule 2 = Raise TypeError ∧
  __getitem__ late_start_schedule 2 = Return None.
Proof.
  apply (lr_scheduler_before_first_threshold accept_scalar (Thresholds late_start) 20
           late_start_schedule 2).
  - vm_compute. reflexivity.
  - intros t ->%late_start_keys. lia.
Defined.

Lemma foldl_min_le (xs : list Z) :
  ∀ k x, x ∈ k :: xs → foldl Z.min k xs ≤ x.
Proof.
  induction xs as [|y xs IH]; intros k x Hin; simpl.
  - apply elem_of_cons in Hin as [->|Hin]; [done|]. by apply elem_of_nil in Hin.
  - pose proof (IH (Z.min k y) (Z.min k y) ltac:(left)) as Hhead.
    apply elem_of_cons in Hin as [->|Hin]; [lia|].
    apply elem_of_cons in Hin as [->|Hin]; [lia|].
    apply IH. by right.
Qed.

Lemma getitem_NoDup {V : Type} (d : list (Z * V)) (k : Z) (v : V) :
  NoDup d.*1 → (k, v) ∈ d → PyDict.getitem d k = Return v.
Proof.
  induction d as [|[k' v'] d IH]; intros Hnodup Hin; [by apply elem_of_nil in Hin|].
  simpl in *. apply NoDup_cons in Hnodup as [Hk' Hnodup].
  apply elem_of_cons in Hin as [[= -> ->]|Hin].
  - by rewrite decide_True.
  - rewrite decide_False; [by apply IH|].
    intros ->. apply Hk'. apply list_elem_of_fmap. by exists (k, v).
Qed.

(** X7.  For an entry with a nested learning-rate map the constructor
    hands [deserialize] the entry with the value at the least key of that map
    as its learning rate, wherever the key is listed, and with the class and
    the other settings of the entry; the optimizer it files under the
    threshold is the one [deserialize] built from that. *)
Theorem init_learning_rate_least_key
    (deserialize : opt_params → result optimizer)
    (p : params_arg) (epochs : Z)
    (self : OptimizerSchedule.t) (thresh : Z) (entry : opt_params)
    (d : list (Z * scalar)) (k : Z) (v : scalar) :
  __init__ deserialize p epochs = Return self →
  normalise p !! thresh = Some entry →
  config_learning_rate entry = PerEpoch d →
  NoDup d.*1 →
  (k, v) ∈ d →
  (∀ k' v', (k', v') ∈ d → k ≤ k') →
  ∃ o,
    deserialize (OptParams (class_name entry) (Scalar v) (config_other entry))
    = Return o ∧
    optimizers self !! thresh = Some o.
Proof.
  intros (_ & Hsome & _)%init_Return Hentry Hlr Hnodup Hin Hleast.
  destruct (Hsome _ _ Hentry) as (o & Ho & ->). exists o. split; [|done].
  unfold make_optimizer in Ho. rewrite Hlr in Ho.
  destruct d as [|[k0 v0] d]; [by apply elem_of_nil in Hin|].
  assert (py_min (PyDict.keys ((k0, v0) :: d)) = Return k) as Hmin.
  { unfold PyDict.keys, py_min. rewrite fmap_cons. f_equal. simpl.
    apply Z.le_antisymm.
    - apply foldl_min_le. apply (list_elem_of_fmap_2 fst _ (k, v)) in Hin. done.
    - pose proof (foldl_min_elem k0 d.*1) as Hm.
      apply (list_elem_of_fmap_1 fst ((k0, v0) :: d)) in Hm as ([k' v'] & -> & Hm).
      by apply (Hleast k' v'). }
  rewrite Hmin in Ho. simpl in Ho.
  pose proof (getitem_NoDup ((k0, v0) :: d) k v Hnodup Hin) as Hget.
  simpl in Hget. by rewrite Hget in Ho.
Qed.

Lemma init_learning_rate_least_key_witness :
  optimizers nested_unordered_schedule !! 0 = Some (Optimizer "SGD" 0.1%Q []).
Proof.
  destruct (init_learning_rate_least_key accept_scalar (Thresholds nested_unordered)
              20 nested_unordered_schedule 0
              (sgd (PerEpoch [(3, 0.01%Q); (0, 0.1%Q)]))
              [(3, 0.01%Q); (0, 0.1%Q)] 0 0.1%Q) as (o & Ho & Hlook).
  - vm_compute. reflexivity.
  - reflexivity.
  - reflexivity.
  - simpl. compute_done.
  - apply list_elem_of_further, list_elem_of_here.
  - intros k' v' Hin.
    repeat (apply elem_of_cons in Hin as [[= -> ->]|Hin]; [lia|]).
    by apply elem_of_nil in Hin.
  - injection Ho as <-. exact Hlook.
Defined.

(** X8.  The constructor raises exactly when the body of its loop raises
    for some entry, and what it raises is then the exception of such an
    entry.  The body raises [ValueError] on an empty nested map ([min] of no
    keys), and otherwise only what [deserialize] raises on the entry with a
    scalar learning rate. *)
Theorem init_raises_iff_entry_fails
    (deserialize : opt_params → result optimizer)
    (p : params_arg) (epochs : Z) :
  (∀ e, __init__ deserialize p epochs = Raise e →
        ∃ t q, normalise p !! t = Some q ∧ make_optimizer deserialize q = Raise e) ∧
  ((∃ t q e, normalise p !! t = Some q ∧ make_optimizer deserialize q = Raise e) →
   ∃ e, __init__ deserialize p epochs = Raise e) ∧
  (∀ q e, make_optimizer deserialize q = Raise e →
     (config_learning_rate q = PerEpoch [] ∧ e = ValueError) ∨
     ∃ v, deserialize (OptParams (class_name q) (Scalar v) (config_other q))
          = Raise e).
Proof.
  split_and!.
  - intros e. unfold __init__.
    pose proof (init_loop deserialize (normalise p)) as Hloop.
    by destruct (map_fold (add_optimizer deserialize) (mret ∅) (normalise p))
      as [os|e'];  simpl in *; [|intros [= <-]].
  - intros (t & q & e & Hq & Hraise).
    destruct (__init__ deserialize p epochs) as [self|e'] eqn:Hinit; [|by eexists].
    destruct (init_Return deserialize _ _ _ Hinit) as (_ & Hsome & _).
    destruct (Hsome _ _ Hq) as (o & Ho & _). congruence.
  - intros q e Hraise. pose proof (make_optimizer_conf deserialize q) as Hconf.
    destruct q as [c [v|[|[k v] d]] other]; simpl in *.
    + right. exists v. by rewrite <-Hconf.
    + left. split; [done|]. congruence.
    + right. destruct Hconf as (v' & _ & Hconf). exists v'. by rewrite <-Hconf.
Qed.

(** X9.  A bare optimizer configuration from which an optimizer can be built
    gives a constant schedule: the constructor files it under threshold 0,
    every epoch from 0 on gets the one optimizer built from it, and a negative
    epoch gets [None]. *)
Theorem bare_config_constant
    (deserialize : opt_params → result optimizer)
    (q : opt_params) (epochs : Z) (o : optimizer) :
  make_optimizer deserialize q = Return o →
  ∃ self,
    __init__ deserialize (Bare q) epochs = Return self ∧
    params self = {[ 0 := q ]} ∧
    (∀ epoch, 0 ≤ epoch → __getitem__ self epoch = Return (Some o)) ∧
    (∀ epoch, epoch < 0 → __getitem__ self epoch = Return None).
Proof.
  intros Ho.
  assert (∀ t, is_Some (normalise (Bare q) !! t) → t = 0) as Hkeys.
  { simpl. intros t [q' Hq']. destruct (decide (t = 0)); [done|].
    by rewrite lookup_singleton_ne in Hq'. }
  destruct (init_total deserialize (Bare q) epochs) as [self Hself].
  { simpl. intros t q' Hq'. assert (t = 0) as -> by (apply Hkeys; eauto).
    rewrite lookup_singleton_eq in Hq'. injection Hq' as <-. eauto. }
  exists self. split_and!; [done|..].
  - by destruct (init_Return deserialize _ _ _ Hself) as (-> & _).
  - intros epoch Hepoch.
    destruct (getitem_greatest deserialize (Bare q) epochs self epoch 0 q)
      as (o' & Ho' & ->);
      [done|apply lookup_singleton_eq|done|by intros t ->%Hkeys|].
    congruence.
  - intros epoch Hepoch. apply (getitem_none deserialize (Bare q) epochs); [done|].
    intros t ->%Hkeys. lia.
Qed.

Lemma bare_config_constant_witness :
  ∃ self,
    __init__ accept_scalar (Bare cfgA) 20 = Return self ∧
    params self = {[ 0 := cfgA ]} ∧
    (∀ epoch, 0 ≤ epoch → __getitem__ self epoch = Return (Some optA)) ∧
    (∀ epoch, epoch < 0 → __getitem__ self epoch = Return None).
Proof. apply (bare_config_constant accept_scalar cfgA 20 optA). reflexivity. Defined.

Lemma elem_of_params_keys
    (deserialize : opt_params → result optimizer)
    (p : params_arg) (epochs : Z)
    (self : OptimizerSchedule.t) (t : Z) :
  __init__ deserialize p epochs = Return self →
  t ∈ dict_keys (params self) ↔ is_Some (normalise p !! t).
Proof.
  intros (-> & _)%init_Return. apply elem_of_dict_keys.
Qed.

(** X10.  [on_epoch_end] replaces the compiled optimizer exactly when the
    next epoch is itself a declared threshold, and then installs the
    optimizer built from the entry at that threshold; at every other epoch
    it leaves the compiled optimizer alone. *)
Theorem on_epoch_end_switch
    (deserialize : opt_params → result optimizer)
    (p : params_arg) (epochs : Z)
    (self : OptimizerSchedule.t) (epoch : Z) (compiled : option optimizer) :
  __init__ deserialize p epochs = Return self →
  (∀ entry, normalise p !! (epoch + 1) = Some entry →
     ∃ o, make_optimizer deserialize entry = Return o ∧
          on_epoch_end self epoch compiled = Return (Some o)) ∧
  (normalise p !! (epoch + 1) = None →
   on_epoch_end self epoch compiled = Return compiled).
Proof.
  intros Hinit. unfold on_epoch_end. split.
  - intros entry Hentry.
    rewrite decide_True by (apply (elem_of_params_keys deserialize p epochs); eauto).
    destruct (getitem_greatest deserialize p epochs self (epoch + 1) (epoch + 1) entry)
      as (o & Ho & Hget); [done|done|lia|auto|].
    exists o. split; [done|]. by rewrite Hget.
  - intros Hnone. rewrite decide_False; [done|].
    intros [q Hq]%(elem_of_params_keys deserialize p epochs); [|done]. congruence.
Qed.

Lemma on_epoch_end_switch_witness :
  ∃ o, make_optimizer accept_scalar cfgB = Return o ∧
       on_epoch_end three_steps_schedule 4 (Some optA) = Return (Some o).
Proof.
  apply (proj1 (on_epoch_end_switch accept_scalar (Thresholds three_steps) 20
                  three_steps_schedule 4 (Some optA)
                  ltac:(vm_compute; reflexivity)) cfgB).
  reflexivity.
Defined.

(** The loop of the lookup reads only thresholds of the map it looks into,
    so the lookup itself never raises. *)
Lemma getitem_Return (self : OptimizerSchedule.t) (epoch : Z) :
  ∃ o, __getitem__ self epoch = Return o.
Proof.
  unfold __getitem__, _opt_scheduler.
  assert (∀ threshs, (∀ t, t ∈ threshs → is_Some (optimizers self !! t)) →
            ∃ o, scan (optimizers self) epoch threshs = Return o) as Hscan.
  { induction threshs as [|h threshs IH]; intros Hkeys; simpl; [by eexists|].
    case_decide.
    - destruct (Hkeys h ltac:(left)) as [o ->]. by eexists.
    - apply IH. intros t Ht. apply Hkeys. by right. }
  apply Hscan. intros t Ht. by apply elem_of_dict_keys, elem_of_sorted_reverse.
Qed.

Lemma on_epoch_end_tracks_schedule_aux
    (deserialize : opt_params → result optimizer)
    (p : params_arg) (epochs : Z)
    (self : OptimizerSchedule.t) (epoch : Z) (compiled : option optimizer) :
  __init__ deserialize p epochs = Return self →
  __getitem__ self epoch = Return compiled →
  on_epoch_end self epoch compiled = __getitem__ self (epoch + 1).
Proof.
  intros Hinit Hcompiled. unfold on_epoch_end. case_decide as Hkey.
  - by destruct (__getitem__ self (epoch + 1)).
  - trans (__getitem__ self epoch); [by rewrite Hcompiled|].
    apply getitem_piecewise_constant_aux; [lia|].
    intros t Ht Hrange. assert (t = epoch + 1) as -> by lia.
    apply Hkey. apply (elem_of_params_keys deserialize p epochs); [done|].
    by apply (init_optimizers_dom deserialize p epochs self).
Qed.

(** X11.  [on_epoch_end] keeps the compiled optimizer in step with the
    schedule: if the model is compiled with what the subscript lookup gives
    for an epoch, then after [on_epoch_end] of that epoch it is compiled with
    what the lookup gives for the next one. *)
Theorem on_epoch_end_tracks_schedule
    (deserialize : opt_params → result optimizer)
    (p : params_arg) (epochs : Z)
    (self : OptimizerSchedule.t) (epoch : Z) (compiled : option optimizer) :
  __init__ deserialize p epochs = Return self →
  __getitem__ self epoch = Return compiled →
  on_epoch_end self epoch compiled = __getitem__ self (epoch + 1).
Proof. apply on_epoch_end_tracks_schedule_aux. Qed.

Lemma on_epoch_end_tracks_schedule_witness :
  on_epoch_end three_steps_schedule 4 (Some optA)
  = __getitem__ three_steps_schedule (4 + 1).
Proof.
  apply (on_epoch_end_tracks_schedule accept_scalar (Thresholds three_steps) 20
           three_steps_schedule 4 (Some optA)).
  - vm_compute. reflexivity.
  - vm_compute. reflexivity.
Defined.

End schedule_extras.

(** * Further properties of layer injection *)

Section inject_extras.
Import Model Examples.

Lemma inserted_layers_length (adds : list layer) (pred : string) (u : UUID.t) :
  length (inserted_layers adds pred u) = length adds.
Proof.
  rewrite <-(length_fmap name), inserted_layers_names. apply length_imap.
Qed.

(** A completed call, in full. *)
Lemma inject_layers_Return
    (from_config : list keras_layer → list layer
                   → result (list keras_layer * list nat))
    (h : list keras_layer) (self : Model.t) (additional : list layer)
    (predecessor : string) (uuid : UUID.t)
    (h' : list keras_layer) (self' : Model.t) (tail : string) :
  inject_layers from_config h self additional predecessor uuid
  = (h', self', Return tail) →
  ∃ before anchor after,
    get_config h (_model self) = before ++ anchor :: after ∧
    name anchor = predecessor ∧
    (predecessor ∉ name <$> before) ∧
    additional ≠ [] ∧
    last (name <$> inserted_layers additional predecessor uuid) = Some tail ∧
    from_config h
      (before ++ anchor :: inserted_layers additional predecessor uuid
         ++ (relinked predecessor tail <$> after))
    = Return (h', _model self').
Proof.
  intros Hcall.
  destruct (decide (predecessor ∈ name <$> get_config h (_model self)))
    as [Hin|Hnot].
  2:{ rewrite inject_layers_not_found in Hcall by done.
      by destruct (from_config h _) as [[? ?]|?]. }
  destruct additional as [|a additional].
  { destruct (inject_layers_nothing_to_add from_config h self predecessor uuid Hin)
      as [Hraise|Hraise]; rewrite Hraise in Hcall; [done|].
    by destruct (from_config h _) as [[? ?]|?]. }
  destruct (first_named _ _ Hin) as (before & anchor & after & Hcfg & Ha & Hnot).
  destruct (inserted_layers_last (a :: additional) predecessor uuid)
    as [tail' Htail]; [done|].
  rewrite (inject_layers_found from_config h self (a :: additional) predecessor
             uuid before anchor after tail') in Hcall by done.
  exists before, anchor, after.
  destruct (from_config h _) as [[h'' m]|e] eqn:Hbuilt; [|done].
  injection Hcall as -> <- ->. by split_and!.
Qed.

(** X13.  [inject_layers] returns exactly when some layer has the anchor's
    name, at least one layer is to be added, and the runtime builds a model
    from the list of layers that the loop hands it. *)
Theorem inject_layers_returns_iff
    (from_config : list keras_layer → list layer
                   → result (list keras_layer * list nat))
    (h : list keras_layer) (self : Model.t) (additional : list layer)
    (predecessor : string) (uuid : UUID.t) :
  (∃ h' self' tail,
     inject_layers from_config h self additional predecessor uuid
     = (h', self', Return tail)) ↔
  predecessor ∈ name <$> get_config h (_model self) ∧
  additional ≠ [] ∧
  ∃ st h' m,
    scan_layers additional predecessor uuid (get_config h (_model self))
                (Locals [] false None) = Return st ∧
    from_config h (new_layers st) = Return (h', m).
Proof.
  split.
  - intros (h' & self' & tail & Hcall).
    destruct (inject_layers_Return _ _ _ _ _ _ _ _ _ Hcall)
      as (before & anchor & after & Hcfg & Ha & Hnot & Hne & Htail & Hbuilt).
    split_and!; [|done|].
    + rewrite Hcfg, fmap_app, fmap_cons, Ha. apply elem_of_app. right. left.
    + eexists _, h', (_model self'). split; [|].
      * rewrite Hcfg. by apply (scan_layers_found _ _ _ _ _ _ tail).
      * exact Hbuilt.
  - intros (Hin & Hne & st & h' & m & Hscan & Hbuilt).
    destruct (first_named _ _ Hin) as (before & anchor & after & Hcfg & Ha & Hnot).
    destruct (inserted_layers_last additional predecessor uuid Hne) as [tail Htail].
    exists h', (Make m), tail.
    rewrite (inject_layers_found from_config h self additional predecessor uuid
               before anchor after tail) by done.
    rewrite Hcfg, (scan_layers_found _ _ _ _ _ _ tail) in Hscan by done.
    injection Hscan as <-. simpl in Hbuilt. by rewrite Hbuilt.
Qed.

(** X14.  A call of [inject_layers] that raises either leaves the store and
    [self._model] untouched, the exception being [UnboundLocalError] from
    the loop or what [from_config] raised, or it is the [UnboundLocalError]
    of [return last_new_layer], raised after [from_config] has rebuilt the
    model from its own list of layers, handed over unchanged. *)
Theorem inject_layers_raises
    (from_config : list keras_layer → list layer
                   → result (list keras_layer * list nat))
    (h : list keras_layer) (self : Model.t) (additional : list layer)
    (predecessor : string) (uuid : UUID.t)
    (h' : list keras_layer) (self' : Model.t) (e : exn) :
  inject_layers from_config h self additional predecessor uuid
  = (h', self', Raise e) →
  (h' = h ∧ self' = self ∧
   (e = UnboundLocalError ∨ ∃ cfg, from_config h cfg = Raise e)) ∨
  (e = UnboundLocalError ∧
   ∃ m, from_config h (get_config h (_model self)) = Return (h', m) ∧
        self' = Make m).
Proof.
  intros Hcall.
  destruct (decide (predecessor ∈ name <$> get_config h (_model self)))
    as [Hin|Hnot].
  - destruct additional as [|a additional].
    + destruct (inject_layers_nothing_to_add from_config h self predecessor
                  uuid Hin) as [Hraise|Hraise]; rewrite Hraise in Hcall.
      * injection Hcall as <- <- <-. left. auto.
      * destruct (from_config h _) as [[h'' m]|e'] eqn:Hbuilt;
          injection Hcall as <- <- <-; [right|left]; eauto 6.
    + destruct (first_named _ _ Hin)
        as (before & anchor & after & Hcfg & Ha & Hbefore).
      destruct (inserted_layers_last (a :: additional) predecessor uuid)
        as [tail Htail]; [done|].
      rewrite (inject_layers_found from_config h self (a :: additional)
                 predecessor uuid before anchor after tail) in Hcall by done.
      destruct (from_config h _) as [[h'' m]|e'] eqn:Hbuilt; [done|].
      injection Hcall as <- <- <-. left. eauto 6.
  - rewrite inject_layers_not_found in Hcall by done.
    destruct (from_config h _) as [[h'' m]|e'] eqn:Hbuilt;
      injection Hcall as <- <- <-; [right|left]; eauto 6.
Qed.

Lemma inject_layers_raises_witness :
  (chain_store = chain_store ∧ chain_model = chain_model ∧
   (UnboundLocalError = UnboundLocalError ∨
    ∃ cfg, as_listed no_weights chain_store cfg = Raise UnboundLocalError)) ∨
  (UnboundLocalError = UnboundLocalError ∧
   ∃ m, as_listed no_weights chain_store (get_config chain_store (_model chain_model))
        = Return (chain_store, m) ∧
        chain_model = Make m).
Proof.
  apply (inject_layers_raises (as_listed no_weights) chain_store chain_model []
           "A" uuid5 chain_store chain_model UnboundLocalError).
  vm_compute. reflexivity.
Defined.

(** What a completed call has added, for a runtime whose model has the
    layers it was asked for. *)
Lemma inject_layers_count_aux
    (from_config : list keras_layer → list layer
                   → result (list keras_layer * list nat))
    (h : list keras_layer) (self : Model.t) (additional : list layer)
    (predecessor : string) (uuid : UUID.t)
    (h' : list keras_layer) (self' : Model.t) (tail : string) :
  (∀ cfg h' m, from_config h cfg = Return (h', m) →
               name <$> get_config h' m ≡ₚ name <$> cfg) →
  inject_layers from_config h self additional predecessor uuid
  = (h', self', Return tail) →
  length (get_config h' (_model self'))
  = (length (get_config h (_model self)) + length additional)%nat ∧
  tail ∈ name <$> get_config h' (_model self').
Proof.
  intros Hlaw (before & anchor & after & Hold & _ & _ & _ & Htail & Hbuilt)
    %inject_layers_Return.
  apply Hlaw in Hbuilt. split.
  - rewrite <-(length_fmap name), Hbuilt, length_fmap, Hold.
    rewrite !length_app. simpl. rewrite !length_app, length_fmap.
    rewrite inserted_layers_length. lia.
  - rewrite Hbuilt. rewrite fmap_app, fmap_cons, fmap_app.
    apply elem_of_app. right. right. apply elem_of_app. left.
    apply last_Some in Htail as [front ->].
    apply elem_of_app. right. left.
Qed.

(** X15.  A completed call adds exactly the layers of the template: when
    the model that the runtime builds has the layers it was asked for, in
    whatever order it lists them, the new configuration has as many layers
    as the old one and the template together, and the returned name is the
    name of one of its layers. *)
Theorem inject_layers_count
    (from_config : list keras_layer → list layer
                   → result (list keras_layer * list nat))
    (h : list keras_layer) (self : Model.t) (additional : list layer)
    (predecessor : string) (uuid : UUID.t)
    (h' : list keras_layer) (self' : Model.t) (tail : string) :
  (∀ cfg h' m, from_config h cfg = Return (h', m) →
               name <$> get_config h' m ≡ₚ name <$> cfg) →
  inject_layers from_config h self additional predecessor uuid
  = (h', self', Return tail) →
  length (get_config h' (_model self'))
  = (length (get_config h (_model self)) + length additional)%nat ∧
  tail ∈ name <$> get_config h' (_model self').
Proof. apply inject_layers_count_aux. Qed.

Lemma as_listed_names (initializer : layer → list array)
    (h : list keras_layer) (cfg : list layer)
    (h' : list keras_layer) (m : list nat) :
  as_listed initializer h cfg = Return (h', m) →
  name <$> get_config h' m ≡ₚ name <$> cfg.
Proof. intros [= <- <-]. by rewrite get_config_as_listed. Qed.

Lemma inject_layers_count_witness :
  length (get_config
            (inject_layers (as_listed no_weights) chain_store chain_model
               template_xy "A" uuid5).1.1
            (_model (inject_layers (as_listed no_weights) chain_store chain_model
                       template_xy "A" uuid5).1.2))
  = (length (get_config chain_store (_model chain_model)) + length template_xy)%nat ∧
  y' ∈ name <$> get_config
                  (inject_layers (as_listed no_weights) chain_store chain_model
                     template_xy "A" uuid5).1.1
                  (_model (inject_layers (as_listed no_weights) chain_store
                             chain_model template_xy "A" uuid5).1.2).
Proof.
  apply (inject_layers_count (as_listed no_weights) chain_store chain_model
           template_xy "A" uuid5).
  - apply as_listed_names.
  - vm_compute. reflexivity.
Defined.

(** X16.  Injections chain: when the model that the runtime builds has the
    layers it was asked for, the name returned by one completed call names a
    layer of the new model, so a second call that takes it as predecessor and
    adds at least one layer finds its anchor.  The second call hands the
    runtime a list with the layers of the first model and of both templates,
    and its outcome is the runtime's. *)
Theorem inject_layers_chain
    (from_config : list keras_layer → list layer
                   → result (list keras_layer * list nat))
    (h : list keras_layer) (self : Model.t) (adds1 adds2 : list layer)
    (predecessor : string) (u1 u2 : UUID.t)
    (h1 : list keras_layer) (self1 : Model.t) (tail1 : string) :
  (∀ cfg h' m, from_config h cfg = Return (h', m) →
               name <$> get_config h' m ≡ₚ name <$> cfg) →
  inject_layers from_config h self adds1 predecessor u1 = (h1, self1, Return tail1) →
  adds2 ≠ [] →
  ∃ cfg2 tail2,
    length cfg2
    = (length (get_config h (_model self)) + length adds1 + length adds2)%nat ∧
    last (name <$> inserted_layers adds2 tail1 u2) = Some tail2 ∧
    inject_layers from_config h1 self1 adds2 tail1 u2
    = match from_config h1 cfg2 with
      | Return (h2, m2) => (h2, Make m2, Return tail2)
      | Raise e => (h1, self1, Raise e)
      end.
Proof.
  intros Hlaw Hfirst Hne.
  destruct (inject_layers_count_aux from_config h self adds1 predecessor u1 h1
              self1 tail1 Hlaw Hfirst) as [Hlen Hin].
  destruct (first_named _ _ Hin) as (before & anchor & after & Hcfg & Ha & Hnot).
  destruct (inserted_layers_last adds2 tail1 u2 Hne) as [tail2 Htail].
  eexists _, tail2. split_and!; [|done|by apply inject_layers_found].
  rewrite !length_app. simpl. rewrite !length_app, length_fmap.
  rewrite inserted_layers_length.
  rewrite Hcfg, !length_app in Hlen. simpl in Hlen. lia.
Qed.

Lemma inject_layers_chain_witness :
  ∃ cfg2 tail2,
    length cfg2
    = (length (get_config chain_store (_model chain_model))
       + length template_xy + length template_xy)%nat ∧
    last (name <$> inserted_layers template_xy y' uuid6) = Some tail2 ∧
    inject_layers (as_listed no_weights)
      (inject_layers (as_listed no_weights) chain_store chain_model template_xy
         "A" uuid5).1.1
      (inject_layers (as_listed no_weights) chain_store chain_model template_xy
         "A" uuid5).1.2
      template_xy y' uuid6
    = match as_listed no_weights
              (inject_layers (as_listed no_weights) chain_store chain_model
                 template_xy "A" uuid5).1.1 cfg2 with
      | Return (h2, m2) => (h2, Make m2, Return tail2)
      | Raise e =>
          ((inject_layers (as_listed no_weights) chain_store chain_model
              template_xy "A" uuid5).1.1,
           (inject_layers (as_listed no_weights) chain_store chain_model
              template_xy "A" uuid5).1.2,
           Raise e)
      end.
Proof.
  apply (inject_layers_chain (as_listed no_weights) chain_store chain_model
           template_xy template_xy "A" uuid5 uuid6).
  - apply as_listed_names.
  - vm_compute. reflexivity.
  - discriminate.
Defined.

Lemma apply_mappings_renamed (maps : list (string * string)) :
  ∀ inbound, apply_mappings maps inbound = renamed maps <$> inbound.
Proof.
  unfold apply_mappings, renamed.
  induction maps as [|[o n] maps IH]; intros inbound; simpl.
  - by rewrite list_fmap_id.
  - rewrite IH. unfold replace_inbound_layer. rewrite <-list_fmap_compose.
    by apply list_fmap_ext.
Qed.

Lemma renamed_not_key (maps : list (string * string)) (e : string) :
  e ∉ maps.*1 → renamed maps e = e.
Proof.
  unfold renamed. induction maps as [|[o n] maps IH]; intros Hnot; simpl; [done|].
  simpl in Hnot. apply not_elem_of_cons in Hnot as [Hne Hnot].
  rewrite decide_False by done. by apply IH.
Qed.

Lemma renamed_key (maps : list (string * string)) (o n : string) :
  NoDup maps.*1 →
  (o, n) ∈ maps →
  (∀ o' n', (o', n') ∈ maps → n' ∉ maps.*1) →
  renamed maps o = n.
Proof.
  induction maps as [|[o0 n0] maps IH]; intros Hnodup Hin Hvalues;
    [by apply elem_of_nil in Hin|].
  simpl in Hnodup. apply NoDup_cons in Hnodup as [Ho0 Hnodup].
  change (renamed ((o0, n0) :: maps) o)
    with (renamed maps (if decide (o = o0) then n0 else o)).
  apply elem_of_cons in Hin as [[= -> ->]|Hin].
  - rewrite decide_True by done. apply renamed_not_key.
    pose proof (Hvalues o0 n0 ltac:(left)) as Hn0. simpl in Hn0.
    by apply not_elem_of_cons in Hn0 as [_ ?].
  - rewrite decide_False.
    + apply IH; [done..|]. intros o' n' Hin'.
      pose proof (Hvalues o' n' ltac:(by right)) as Hn'. simpl in Hn'.
      by apply not_elem_of_cons in Hn' as [_ ?].
    + intros ->. apply Ho0. apply list_elem_of_fmap. by exists (o0, n).
Qed.

Lemma setitem_fresh (maps : list (string * string)) (k v : string) :
  k ∉ maps.*1 → PyDict.setitem maps k v = maps ++ [(k, v)].
Proof.
  induction maps as [|[k' v'] maps IH]; intros Hnot; simpl; [done|].
  simpl in Hnot. apply not_elem_of_cons in Hnot as [Hne Hnot].
  rewrite decide_False by done. by rewrite IH.
Qed.

Lemma sibling_keys (u : UUID.t) (i0 : nat) (adds : list layer) :
  (imap (λ j b, (name b, generated_name (name b) u (i0 + j))) adds).*1
  = name <$> adds.
Proof.
  apply list_eq. intros k.
  rewrite !list_lookup_fmap, list_lookup_imap. by destruct (adds !! k).
Qed.

(** The layer that the inner loop builds at each position, with the mapping
    in force at that point. *)
Lemma add_layers_lookup (u : UUID.t) (adds : list layer) :
  ∀ (i0 : nat) (maps0 : list (string * string)) (k : nat) (a : layer),
    NoDup (name <$> adds) →
    (∀ b, b ∈ adds → name b ∉ maps0.*1) →
    adds !! k = Some a →
    new_layers (add_layers u i0 adds maps0 (Locals [] false None)) !! k
    = Some (Layer (generated_name (name a) u (i0 + k)) (class_name a)
              (generated_name (name a) u (i0 + k)) (config_other a)
              (apply_mappings
                 (maps0 ++ imap (λ j b, (name b, generated_name (name b) u (i0 + j)))
                                (take (S k) adds))
                 (inbound_nodes a))).
Proof.
  induction adds as [|a0 adds IH]; intros i0 maps0 k a Hnodup Hfresh Hk; [done|].
  simpl in Hnodup. apply NoDup_cons in Hnodup as [Ha0 Hnodup].
  cbn [add_layers]. rewrite add_layers_new_layers. cbn [new_layers app].
  rewrite setitem_fresh by (apply Hfresh; left).
  destruct k as [|k]; simpl in Hk.
  - injection Hk as ->. simpl. by rewrite Nat.add_0_r.
  - assert (i0 + S k = S i0 + k)%nat as -> by lia.
    set (g0 := generated_name (name a0) u i0).
    assert (maps0 ++ imap (λ j b, (name b, generated_name (name b) u (i0 + j)))
                          (take (S (S k)) (a0 :: adds))
            = (maps0 ++ [(name a0, g0)])
                ++ imap (λ j b, (name b, generated_name (name b) u (S i0 + j)))
                        (take (S k) adds)) as ->.
    { rewrite <-app_assoc. f_equal. subst g0.
      change (take (S (S k)) (a0 :: adds)) with (a0 :: take (S k) adds).
      rewrite imap_cons, Nat.add_0_r. simpl. f_equal.
      apply imap_ext. intros j b _. simpl. do 2 f_equal. lia. }
    change ((?x :: ?l) !! S k) with (l !! k).
    rewrite (IH (S i0) _ k a Hnodup); [done|..|done].
    intros b Hb. rewrite fmap_app. simpl. intros Hin.
    apply elem_of_app in Hin as [Hin|Hin].
    + by apply (Hfresh b); [right|].
    + apply elem_of_cons in Hin as [Heq|Hin]; [|by apply elem_of_nil in Hin].
      apply Ha0. rewrite <-Heq. by apply list_elem_of_fmap_2.
Qed.

(** X17.  How the inbound nodes of a new layer are resolved.  When the
    template's names are distinct and none of them is [PREDECESSOR], the
    anchor's name or a generated name, every inbound entry of the layer at
    position [i] is rewritten in one step: [PREDECESSOR] becomes the anchor,
    the name of a template layer at a position up to [i] (the layer itself
    included) becomes that layer's generated name, and anything else, the
    name of a later template layer too, stays as it is.  The new layer keeps
    the template's class and settings and carries its generated name in both
    name fields. *)
Theorem inserted_layers_resolved (additional : list layer) (predecessor : string)
    (uuid : UUID.t) (i : nat) (a : layer) :
  NoDup (name <$> additional) →
  "PREDECESSOR"%string ∉ name <$> additional →
  predecessor ∉ name <$> additional →
  (∀ n, n ∈ name <$> additional →
        n ∉ name <$> inserted_layers additional predecessor uuid) →
  additional !! i = Some a →
  inserted_layers additional predecessor uuid !! i
  = Some (Layer (generated_name (name a) uuid i) (class_name a)
            (generated_name (name a) uuid i) (config_other a)
            (resolved additional predecessor uuid i <$> inbound_nodes a)).
Proof.
  intros Hnodup Hplaceholder Hpred Hgenerated Ha.
  unfold inserted_layers.
  rewrite (add_layers_lookup uuid additional 0 _ i a Hnodup); [|..|done].
  2:{ intros b Hb. simpl. intros Hin.
      apply elem_of_cons in Hin as [Heq|Hin]; [|by apply elem_of_nil in Hin].
      apply Hplaceholder. rewrite <-Heq. by apply list_elem_of_fmap_2. }
  rewrite apply_mappings_renamed. cbn [Nat.add app]. do 2 f_equal.
  apply list_fmap_ext. intros _ e _.
  set (sibs := imap (λ j b, (name b, generated_name (name b) uuid j))
                    (take (S i) additional)).
  assert (sibs.*1 = name <$> take (S i) additional) as Hkeys
    by apply (sibling_keys uuid 0).
  assert (∀ n, n ∈ sibs.*1 → n ∈ name <$> additional) as Hsub.
  { intros n. rewrite Hkeys, fmap_take. apply (subseteq_take (S i)). }
  change (renamed (("PREDECESSOR"%string, predecessor) :: sibs) e)
    with (renamed sibs (if decide (e = "PREDECESSOR"%string)
                        then predecessor else e)).
  unfold resolved. case_decide as He.
  - apply renamed_not_key. intros Hin. by apply Hpred, Hsub.
  - destruct (list_find _ _) as [[j b]|] eqn:Hfind.
    + apply list_find_Some in Hfind as (Hj & <- & _).
      apply renamed_key.
      * rewrite Hkeys, fmap_take.
        by apply (sublist_NoDup _ (name <$> additional)), sublist_take.
      * apply list_elem_of_lookup. exists j. subst sibs.
        by rewrite list_lookup_imap, Hj.
      * intros o' n' (j' & b' & [= -> ->] & Hj')%elem_of_lookup_imap_1 Hin.
        apply (Hgenerated (generated_name (name b') uuid j')); [by apply Hsub|].
        rewrite inserted_layers_names. apply lookup_take_Some in Hj' as [Hj' _].
        by apply (elem_of_lookup_imap_2
                    (λ k c, generated_name (name c) uuid k) _ b' j').
    + apply list_find_None in Hfind. apply renamed_not_key.
      rewrite Hkeys. intros (b & -> & Hb)%list_elem_of_fmap.
      rewrite Forall_forall in Hfind. by apply (Hfind b).
Qed.

Lemma inserted_layers_resolved_witness :
  inserted_layers template_xy "A" uuid5 !! 1%nat = Some (dense y' [x']).
Proof.
  rewrite (inserted_layers_resolved template_xy "A" uuid5 1 (dense "Y" ["X"%string])).
  - vm_compute. reflexivity.
  - simpl. compute_done.
  - simpl. compute_done.
  - simpl. compute_done.
  - vm_compute. intros n Hn Hgen.
    repeat (apply elem_of_cons in Hn as [->|Hn];
            [repeat (apply elem_of_cons in Hgen as [Hgen|Hgen]; [discriminate|]);
             by apply elem_of_nil in Hgen|]).
    by apply elem_of_nil in Hn.
  - reflexivity.
Defined.

(** The layers of a model built by the runtime of the examples: one per
    entry, each with the parameters the runtime initialises it with. *)
Lemma layers_as_listed (initializer : layer → list array) (cfg : list layer) :
  ∀ h : list keras_layer,
    layers (h ++ ((λ c, KerasLayer c (initializer c)) <$> cfg))
           (seq (length h) (length cfg))
    = (λ c, KerasLayer c (initializer c)) <$> cfg.
Proof.
  unfold layers.
  induction cfg as [|c cfg IH]; intros h; [done|].
  cbn [length seq]. rewrite fmap_cons. cbn [omap list_omap].
  rewrite lookup_app_r by lia. rewrite Nat.sub_diag. cbn [lookup list_lookup].
  f_equal. specialize (IH (h ++ [KerasLayer c (initializer c)])).
  rewrite length_app, <-app_assoc in IH. simpl in IH.
  by rewrite Nat.add_1_r in IH.
Qed.

(** X19.  A call whose anchor is missing raises only after it has replaced
    the model.  With a runtime that builds one new layer object per entry,
    each with freshly initialised parameters, the layers have the old
    configuration, but they are new objects and the learned parameters are
    gone. *)
Theorem inject_without_anchor_resets_weights
    (initializer : layer → list array) (h : list keras_layer)
    (self : Model.t) (additional : list layer) (predecessor : string)
    (uuid : UUID.t) :
  predecessor ∉ name <$> get_config h (_model self) →
  ∃ h' self',
    inject_layers (as_listed initializer) h self additional predecessor uuid
    = (h', self', Raise UnboundLocalError) ∧
    layers h' (_model self')
    = (λ c, KerasLayer c (initializer c)) <$> get_config h (_model self) ∧
    (∀ l, l ∈ _model self' → h !! l = None).
Proof.
  intros Hnot. rewrite inject_layers_not_found by done.
  unfold as_listed. do 2 eexists. split_and!; [done|..].
  - apply (layers_as_listed initializer _ h).
  - simpl. intros l [Hge _]%elem_of_seq. apply lookup_ge_None. lia.
Qed.

Lemma inject_without_anchor_resets_weights_witness :
  ∃ h' self',
    inject_layers (as_listed (λ _, [Array [1%nat] [0%Q]])) two_models destination
                  [] "Z" uuid5
    = (h', self', Raise UnboundLocalError) ∧
    layers h' (_model self')
    = (λ c, KerasLayer c [Array [1%nat] [0%Q]])
        <$> get_config two_models (_model destination) ∧
    (∀ l, l ∈ _model self' → two_models !! l = None).
Proof.
  apply (inject_without_anchor_resets_weights (λ _, [Array [1%nat] [0%Q]])
           two_models destination [] "Z" uuid5).
  vm_compute. intros H.
  repeat (apply elem_of_cons in H as [H|H]; [discriminate|]).
  by apply elem_of_nil in H.
Defined.

End inject_extras.

(** * Further properties of weight copying and of generated names *)

Section copy_extras.
Import Model Examples.

(** What [set_weights] hands back when it takes the arrays. *)
Lemma set_weights_Return (this_layer this_layer' : keras_layer) (w : list array) :
  set_weights this_layer w = Return this_layer' →
  this_layer' = KerasLayer (layer_config this_layer) w.
Proof. unfold set_weights. case_decide; [|done]. by intros [= <-]. Qed.

Lemma copy_loop_length (early_stop : bool) (pairs : list (nat * nat)) :
  ∀ h : list keras_layer, length (copy_loop early_stop pairs h).1 = length h.
Proof.
  induction pairs as [|[this other] rest IH]; intros h; simpl; [done|].
  destruct (h !! this) as [this_layer|]; [|done].
  destruct (h !! other) as [other_layer|]; [|done].
  case_decide; [destruct early_stop; [done|apply IH]|].
  destruct (set_weights this_layer (get_weights other_layer)); [|done].
  by rewrite IH, length_insert.
Qed.

Lemma copy_loop_config (early_stop : bool) (pairs : list (nat * nat)) :
  ∀ (h : list keras_layer) (l : nat),
    layer_config <$> (copy_loop early_stop pairs h).1 !! l = layer_config <$> h !! l.
Proof.
  induction pairs as [|[this other] rest IH]; intros h l; simpl; [done|].
  destruct (h !! this) as [this_layer|] eqn:Hthis; [|done].
  destruct (h !! other) as [other_layer|]; [|done].
  case_decide; [destruct early_stop; [done|apply IH]|].
  destruct (set_weights this_layer (get_weights other_layer)) as [this_layer'|e]
    eqn:Hset; [|done].
  apply set_weights_Return in Hset as ->.
  rewrite IH. destruct (decide (l = this)) as [->|Hne].
  - rewrite list_lookup_insert_eq by (by apply lookup_lt_Some in Hthis).
    by rewrite Hthis.
  - by rewrite list_lookup_insert_ne.
Qed.

(** X20.  What [copy_weights] never does, however it ends: it creates and
    removes no layer object, it changes no layer's configuration (so every
    model keeps its layer names and inbound nodes), and it writes to no layer
    outside [self]. *)
Theorem copy_weights_writes_only_weights_of_self (h : list keras_layer)
    (self other : Model.t) (early_stop : bool) :
  length (copy_weights h self other early_stop).1 = length h ∧
  (∀ m : list nat,
     get_config (copy_weights h self other early_stop).1 m = get_config h m) ∧
  (∀ l, l ∉ _model self → (copy_weights h self other early_stop).1 !! l = h !! l).
Proof.
  unfold copy_weights. split_and!.
  - apply copy_loop_length.
  - intros m. unfold get_config, layers.
    induction m as [|l m IH]; [done|]. csimpl.
    pose proof (copy_loop_config early_stop
                  (zip (_model self) (_model other)) h l) as Hl.
    destruct ((copy_loop _ _ h).1 !! l) as [x|], (h !! l) as [y|];
      try discriminate Hl; csimpl; rewrite IH;
      first [by injection Hl as ->|done].
  - intros l Hl. apply copy_loop_frame. by apply not_elem_of_zip_fst.
Qed.




Lemma transplanted_idempotent (early_stop : bool) (these : list keras_layer) :
  ∀ others,
    transplanted early_stop (transplanted early_stop these others).1 others
    = transplanted early_stop these others.
Proof.
  induction these as [|d these IH]; intros [|s others]; try done.
  specialize (IH others). simpl.
  destruct (decide (layer_name d ≠ layer_name s)) as [Hname|Hname].
  - destruct early_stop; simpl.
    + by rewrite decide_True.
    + destruct (transplanted false these others) as [rest outcome]. simpl in *.
      by rewrite decide_True, IH.
  - destruct (set_weights d (get_weights s)) as [d'|e] eqn:Hset.
    + destruct (transplanted early_stop these others) as [rest outcome].
      pose proof (set_weights_Return _ _ _ Hset) as ->. simpl in *.
      rewrite decide_False by done.
      rewrite (set_weights_compatible (KerasLayer _ _) s) by done.
      by rewrite IH.
    + simpl. by rewrite decide_False, Hset.
Qed.

(** The layers of the source after the call. *)
Lemma copy_weights_source_layers (h : list keras_layer) (self other : Model.t)
    (early_stop : bool) :
  _model self = _model other ∨ _model self ## _model other →
  layers (copy_weights h self other early_stop).1 (_model other)
  = layers h (_model other).
Proof.
  intros [Heq|Hdisj]; unfold copy_weights.
  - by rewrite <-Heq, copy_loop_self.
  - apply layers_frame. intros l Hl. apply copy_loop_frame.
    apply not_elem_of_zip_fst. intros Hl'. by apply (Hdisj l).
Qed.

(** X22.  Copying twice is copying once: a second call with the same
    arguments leaves the layers of [self] as the first call made them, and
    ends the way the first call ended. *)
Theorem copy_weights_idempotent (h : list keras_layer) (self other : Model.t)
    (early_stop : bool) :
  NoDup (_model self) →
  _model self = _model other ∨ _model self ## _model other →
  (∀ l, l ∈ _model self → is_Some (h !! l)) →
  (∀ l, l ∈ _model other → is_Some (h !! l)) →
  layers (copy_weights (copy_weights h self other early_stop).1 self other
            early_stop).1
    (_model self)
  = layers (copy_weights h self other early_stop).1 (_model self) ∧
  (copy_weights (copy_weights h self other early_stop).1 self other early_stop).2
  = (copy_weights h self other early_stop).2.
Proof.
  intros Hnodup Hshare Hself Hother.
  assert (∀ m : list nat,
    (∀ l, l ∈ m → is_Some (h !! l)) →
    ∀ l, l ∈ m → is_Some ((copy_weights h self other early_stop).1 !! l)) as Hlive.
  { intros m Hm l Hl. apply lookup_lt_is_Some.
    unfold copy_weights. rewrite copy_loop_length.
    apply lookup_lt_is_Some. by apply Hm. }
  pose proof (copy_weights_transplanted (copy_weights h self other early_stop).1
                self other early_stop Hnodup Hshare (Hlive _ Hself)
                (Hlive _ Hother)) as Hsecond.
  rewrite copy_weights_source_layers in Hsecond by done.
  pose proof (copy_weights_transplanted h self other early_stop Hnodup Hshare
                Hself Hother) as Hfirst.
  assert (layers (copy_weights h self other early_stop).1 (_model self)
          = (transplanted early_stop (layers h (_model self))
               (layers h (_model other))).1) as Hlayers
    by (by rewrite <-Hfirst).
  rewrite Hlayers, transplanted_idempotent, <-Hfirst in Hsecond.
  by injection Hsecond as -> ->.
Qed.

Lemma copy_weights_idempotent_witness :
  layers (copy_weights (copy_weights two_models destination source false).1
            destination source false).1 (_model destination)
  = layers (copy_weights two_models destination source false).1 (_model destination).
Proof.
  apply (copy_weights_idempotent two_models destination source false).
  - apply destination_NoDup.
  - right. apply two_models_disjoint.
  - apply two_models_live. by left.
  - apply two_models_live. by right.
Defined.

(** X23.  A generated name can be read back: it determines the template
    name, the identifier of the call and the position it was built from. *)
Theorem generated_name_inj (n1 n2 : string) (u1 u2 : UUID.t) (i1 i2 : nat) :
  UUID.valid u1 → UUID.valid u2 →
  generated_name n1 u1 i1 = generated_name n2 u2 i2 →
  n1 = n2 ∧ u1 = u2 ∧ i1 = i2.
Proof.
  intros Hu1 Hu2 Heq.
  pose proof (generated_name_uuid _ _ _ _ _ _ Hu1 Hu2 Heq) as ->.
  apply generated_name_position in Heq as [-> Heq]. split_and!; [|done..].
  apply (f_equal String.list_ascii_of_string) in Heq.
  rewrite !chars_app in Heq. apply app_inv_tail in Heq. by apply chars_inj.
Qed.

Lemma generated_name_inj_witness :
  ("X"%string = "X"%string) ∧ uuid5 = uuid5 ∧ 0%nat = 0%nat.
Proof.
  apply (generated_name_inj "X" "X" uuid5 uuid5 0 0).
  - unfold UUID.valid. simpl. lia.
  - unfold UUID.valid. simpl. lia.
  - reflexivity.
Defined.

End copy_extras.

